(** * LED control over DDS: the client's request/response correlation and
      the server's request processor

    A shallow embedding of [dds_led_control_rpc/client.cpp] (class
    [LedClient]: [sendRequest], [checkResponses]) and of
    [dds_led_control_rpc/server.cpp] (class [LedServer]: [processRequest]).

    Modelling choices, all taken from the two source files:
    - [unsigned long] is a 64-bit word (LP64): a value of [N] below
      [2 ^ 64], and [++request_counter] wraps around;
    - [std::chrono::steady_clock::time_point] and durations are counts of
      nanoseconds in [Z]; [5s] is [5 * 10^9] of them and
      [duration_cast<milliseconds>] truncates towards zero;
    - [std::map<unsigned long, time_point>] is its in-order node sequence,
      a list of pairs with strictly ascending keys; an iterator is a
      position in that sequence and [end()] is its length;
    - [bool led_states[3]] is a list of booleans written through a checked
      index;
    - the text printed on [std::cout] and [std::cerr] is a list of events,
      one per message block;
    - the DDS reader and writer are the external transport: what [take()]
      returns is an argument, what [write] publishes is appended to a log. *)

From Stdlib Require Import ZArith NArith String Lia Sorted.
From stdpp Require Import base tactics option list numbers sorting.

Set Default Proof Using "Type".

(* ================================================================== *)
(** * Definitions *)
(* ================================================================== *)

(** ** Machine words and the clock representation *)

Module Word.

(** Width of [unsigned long]. *)
Definition ULONG_WIDTH : N := 64.
Definition ULONG_MODULUS : N := 2 ^ ULONG_WIDTH.

(** [++x] on an [unsigned long]. *)
Definition pre_increment (x : N) : N := ((x + 1) mod ULONG_MODULUS)%N.

(** The values an [unsigned long] holds. *)
Definition in_range (x : N) : Prop := (x < ULONG_MODULUS)%N.

End Word.

Module Chrono.

(** [steady_clock::time_point] and [steady_clock::duration]: nanoseconds. *)
Definition time_point := Z.
Definition duration := Z.

(** The literal [5s], converted to the clock's period for the comparison
    with [now - it->second]. *)
Definition seconds (n : Z) : duration := (n * 1000000000)%Z.

(** [duration_cast<milliseconds>(d).count()]: integer division that
    truncates towards zero. *)
Definition duration_cast_milliseconds (d : duration) : Z := (d ÷ 1000000)%Z.

End Chrono.

(** ** The generated message types *)

Module led_control.

(** Modelled from the spec: the header [LedControl.hpp] is generated from
    the IDL and is not part of the sources.  The spec gives the schema
    (Request: [{id : uint64, color : enum {RED, GREEN, BLUE}, state : bool}],
    Response: [{request_id : uint64, success : bool, message : string,
    color, state}]). *)
Inductive LedColor : Type := RED | GREEN | BLUE.

(** Modelled from the spec: [static_cast<int>(color)] gives the value of
    the enumerator, which the missing header declares.  The enumerators
    are numbered from 0 in the order of the schema, as an IDL enumeration
    is; both sources rely on that numbering ([bool led_states[3]; // RED,
    GREEN, BLUE] and the lines printed from [led_states[0]], [[1]], [[2]]
    in the server, [color_dist{0, 2}] in the client). *)
Definition LedColor_to_int (c : LedColor) : Z :=
  match c with RED => 0 | GREEN => 1 | BLUE => 2 end%Z.

Record LedRequest : Type := mkLedRequest {
  req_color : LedColor;
  req_state : bool;
  req_request_id : N
}.

Record LedResponse : Type := mkLedResponse {
  success : bool;
  message : string;
  color : LedColor;
  state : bool;
  request_id : N
}.

#[global] Instance LedColor_eq_dec : EqDecision LedColor.
Proof. solve_decision. Defined.

End led_control.
Import led_control.

(** [colorToString], the same switch in both classes. *)
Definition colorToString (c : LedColor) : string :=
  match c with
  | RED => "RED"
  | GREEN => "GREEN"
  | BLUE => "BLUE"
  end.

(** A sample taken from a DDS reader: [sample.info().valid()] and
    [sample.data()]. *)
Record Sample (A : Type) : Type := mkSample {
  valid : bool;
  data : A
}.
Arguments mkSample {A} _ _.
Arguments valid {A} _.
Arguments data {A} _.

(** ** [std::map<unsigned long, time_point>] *)

Module StdMap.

Abbreviation t := (list (N * Z)) (only parsing).
Abbreviation iterator := nat (only parsing).

Definition begin (m : t) : iterator := 0.
Definition end_ (m : t) : iterator := length m.

(** [*it]; [None] stands for dereferencing [end()]. *)
Definition deref (m : t) (it : iterator) : option (N * Z) := m !! it.

(** [m.find(k)]: the position of the node with key [k], or [end()]. *)
Fixpoint find (k : N) (m : t) : iterator :=
  match m with
  | [] => 0
  | (k', _) :: m' => if decide (k' = k) then 0 else S (find k m')
  end.

(** [m.erase(it)] unlinks the node at [it] and returns the iterator to
    the node that followed it, which now sits at the same position. *)
Definition erase (it : iterator) (m : t) : t * iterator := (delete it m, it).

(** [m[k] = v]: overwrite the node with key [k], or link a new node at
    its place in key order. *)
Fixpoint assign (k : N) (v : Z) (m : t) : t :=
  match m with
  | [] => [(k, v)]
  | (k', v') :: m' =>
      if decide (k < k')%N then (k, v) :: m
      else if decide (k = k') then (k, v) :: m'
      else (k', v') :: assign k v m'
  end.

(** Specification vocabulary: the value stored under a key, the keys in
    iteration order, and the representation invariant. *)
Definition get (k : N) (m : t) : option Z := snd <$> deref m (find k m).
Definition keys (m : t) : list N := m.*1.
Definition ok (m : t) : Prop := StronglySorted N.lt (keys m).

End StdMap.

(** ** The server: [LedServer] *)

Module Server.

Inductive Event : Type :=
| ReceivedRequest (c : string) (st : bool) (id : N)
| SentResponse (id : N).

Record LedServer : Type := mkLedServer {
  led_states : list bool;
  response_writer : list LedResponse;
  cout : list Event
}.

(** [bool led_states[3] = {false, false, false}]. *)
Definition init : LedServer :=
  {| led_states := [false; false; false]; response_writer := []; cout := [] |}.

(** [a[i] = v] on a built-in array: defined only inside the bounds. *)
Definition array_store (a : list bool) (i : Z) (v : bool) : option (list bool) :=
  if decide (0 ≤ i < Z.of_nat (length a))%Z
  then Some (<[Z.to_nat i := v]> a)
  else None.

(** [processRequest].  The 10 ms sleep has no effect on the data. *)
Definition processRequest (request : LedRequest) (s : LedServer)
  : option LedServer :=
  let out1 := ReceivedRequest (colorToString (req_color request))
                (req_state request) (req_request_id request) in
  let color_index := LedColor_to_int (req_color request) in
  match array_store (led_states s) color_index (req_state request) with
  | None => None
  | Some leds =>
      let response :=
        {| success := true;
           message := "LED control successful";
           color := req_color request;
           state := req_state request;
           request_id := req_request_id request |} in
      Some {| led_states := leds;
              response_writer := response_writer s ++ [response];
              cout := cout s ++ [out1; SentResponse (req_request_id request)] |}
  end.

(** The body of the loop of [run]: every valid sample is processed. *)
Fixpoint serve (samples : list (Sample LedRequest)) (s : LedServer)
  : option LedServer :=
  match samples with
  | [] => Some s
  | sample :: rest =>
      if valid sample then
        match processRequest (data sample) s with
        | Some s' => serve rest s'
        | None => None
        end
      else serve rest s
  end.

(** Specification vocabulary: the LED state as a map from colours, and
    the shape of the array. *)
Definition LedState (s : LedServer) (c : LedColor) : option bool :=
  led_states s !! Z.to_nat (LedColor_to_int c).
Definition ok (s : LedServer) : Prop := length (led_states s) = 3.

End Server.

(** ** The client: [LedClient] *)

Module Client.

(** What the client prints: the line of [sendRequest] and the block of a
    matched response on [std::cout], the timeout line on [std::cerr]. *)
Inductive Event : Type :=
| SendingRequest (c : string) (st : bool) (id : N)
| ReceivedResponse (response : LedResponse) (latency : Z)
| TimeoutForRequest (id : N).

(** The members of [LedClient] that carry data, the log of the samples
    handed to [request_writer.write], and the number of readings of
    [steady_clock::now()] taken so far. *)
Record LedClient : Type := mkLedClient {
  request_counter : N;
  pending_requests : StdMap.t;
  request_writer : list LedRequest;
  clock_reads : nat
}.

(** [request_counter{0}] and an empty map. *)
Definition init : LedClient :=
  {| request_counter := 0; pending_requests := [];
     request_writer := []; clock_reads := 0 |}.

Definition set_pending (m : StdMap.t) (c : LedClient) : LedClient :=
  {| request_counter := request_counter c; pending_requests := m;
     request_writer := request_writer c; clock_reads := clock_reads c |}.

(** The timeout of [checkResponses]: [5s]. *)
Definition TIMEOUT : Chrono.duration := Chrono.seconds 5.

(** One call of the public interface: [manualControl] and the initial
    requests of [run] call [sendRequest]; each turn of the loop of [run]
    calls [checkResponses] on the samples [take()] returns. *)
Inductive Step : Type :=
| Send (c : LedColor) (st : bool)
| Tick (samples : list (Sample LedResponse)).

Section WithClock.

(** [steady_clock k] is the value of the [k]-th call of
    [std::chrono::steady_clock::now()]. *)
Variable steady_clock : nat → Chrono.time_point.

Definition now (c : LedClient) : Chrono.time_point * LedClient :=
  (steady_clock (clock_reads c),
   {| request_counter := request_counter c;
      pending_requests := pending_requests c;
      request_writer := request_writer c;
      clock_reads := S (clock_reads c) |}).

(** [sendRequest]. *)
Definition sendRequest (color : LedColor) (state : bool) (c : LedClient)
  : LedClient * list Event :=
  let counter := Word.pre_increment (request_counter c) in
  let request := mkLedRequest color state counter in
  let out := SendingRequest (colorToString color) state
               (req_request_id request) in
  let written := request_writer c ++ [request] in
  let (t, c1) := now {| request_counter := counter;
                        pending_requests := pending_requests c;
                        request_writer := written;
                        clock_reads := clock_reads c |} in
  (set_pending (StdMap.assign (req_request_id request) t
                  (pending_requests c1)) c1,
   [out]).

(** [checkResponses], first loop: match the samples against the
    pending requests. *)
Fixpoint drain (samples : list (Sample LedResponse)) (c : LedClient)
  : LedClient * list Event :=
  match samples with
  | [] => (c, [])
  | sample :: rest =>
      if valid sample then
        let response := data sample in
        let it := StdMap.find (request_id response) (pending_requests c) in
        if decide (it ≠ StdMap.end_ (pending_requests c)) then
          match StdMap.deref (pending_requests c) it with
          | Some (_, issued) =>
              let (t, c1) := now c in
              let latency :=
                Chrono.duration_cast_milliseconds (t - issued)%Z in
              let c2 :=
                set_pending (StdMap.erase it (pending_requests c1)).1 c1 in
              let (c3, out) := drain rest c2 in
              (c3, ReceivedResponse response latency :: out)
          | None => drain rest c (* not reached: [it] is not [end()] *)
          end
        else drain rest c
      else drain rest c
  end.

(** The result of the second loop: the map, the iterator the loop
    stopped at, what was printed, and (for the proofs only) the keys
    [it->first] the loop looked at, in order. *)
Record Swept : Type := mkSwept {
  swept_map : StdMap.t;
  swept_it : StdMap.iterator;
  swept_out : list Event;
  swept_visited : list N
}.

(** [checkResponses], second loop:
    [for (it = begin(); it != end(); ) { if (now - it->second > 5s)
    it = erase(it); else ++it; }].  [fuel] bounds the number of turns;
    [sweep_loop_exits] shows that the length of the map is enough for
    the loop to leave through its condition. *)
Fixpoint sweep_loop (fuel : nat) (now : Chrono.time_point)
    (it : StdMap.iterator) (m : StdMap.t) : Swept :=
  match fuel with
  | 0 => mkSwept m it [] []
  | S fuel' =>
      if decide (it ≠ StdMap.end_ m) then
        match StdMap.deref m it with
        | Some (id, issued) =>
            let r :=
              if decide (now - issued > TIMEOUT)%Z then
                let (m', it') := StdMap.erase it m in
                let r := sweep_loop fuel' now it' m' in
                mkSwept (swept_map r) (swept_it r)
                  (TimeoutForRequest id :: swept_out r) (swept_visited r)
              else sweep_loop fuel' now (S it) m in
            mkSwept (swept_map r) (swept_it r) (swept_out r)
              (id :: swept_visited r)
        | None => mkSwept m it [] [] (* not reached *)
        end
      else mkSwept m it [] []
  end.

Definition sweep (c : LedClient) : LedClient * list Event :=
  let (t, c1) := now c in
  let m := pending_requests c1 in
  let r := sweep_loop (length m) t (StdMap.begin m) m in
  (set_pending (swept_map r) c1, swept_out r).

(** [checkResponses]: the samples are matched, then the map is swept. *)
Definition checkResponses (samples : list (Sample LedResponse))
    (c : LedClient) : LedClient * list Event :=
  let (c1, out1) := drain samples c in
  let (c2, out2) := sweep c1 in
  (c2, out1 ++ out2).

Definition step (s : Step) (c : LedClient) : LedClient * list Event :=
  match s with
  | Send color state => sendRequest color state c
  | Tick samples => checkResponses samples c
  end.

Fixpoint run (steps : list Step) (c : LedClient) : LedClient * list Event :=
  match steps with
  | [] => (c, [])
  | s :: rest =>
      let (c1, out1) := step s c in
      let (c2, out2) := run rest c1 in
      (c2, out1 ++ out2)
  end.

End WithClock.

(** *** Specification vocabulary *)

(** The id a printed message is about. *)
Definition is_match (R : N) (e : Event) : bool :=
  match e with
  | ReceivedResponse response _ => bool_decide (request_id response = R)
  | _ => false
  end.
Definition is_timeout (R : N) (e : Event) : bool :=
  match e with
  | TimeoutForRequest id => bool_decide (id = R)
  | _ => false
  end.
Definition is_sending (R : N) (e : Event) : bool :=
  match e with
  | SendingRequest _ _ id => bool_decide (id = R)
  | _ => false
  end.

Fixpoint count (p : Event → bool) (out : list Event) : nat :=
  match out with
  | [] => 0
  | e :: out' => (if p e then 1 else 0) + count p out'
  end.

(** The ids of the requests sent, in the order they were sent. *)
Definition sent_ids (out : list Event) : list N :=
  omap (λ e, match e with SendingRequest _ _ id => Some id | _ => None end) out.

(** Number of [Send] steps of a session. *)
Fixpoint sends (steps : list Step) : nat :=
  match steps with
  | [] => 0
  | Send _ _ :: rest => S (sends rest)
  | Tick _ :: rest => sends rest
  end.

(** [1] when the key is in the map, [0] when it is not. *)
Definition pending (R : N) (c : LedClient) : nat :=
  match StdMap.get R (pending_requests c) with Some _ => 1 | None => 0 end.

(** The client after a match: one more clock reading, one node fewer. *)
Definition matched (R : N) (c : LedClient) : LedClient :=
  {| request_counter := request_counter c;
     pending_requests :=
       (StdMap.erase (StdMap.find R (pending_requests c)) (pending_requests c)).1;
     request_writer := request_writer c;
     clock_reads := S (clock_reads c) |}.

(** A clock that never runs backwards. *)
Definition monotone (clock : nat → Z) : Prop :=
  ∀ i j, i ≤ j → (clock i ≤ clock j)%Z.

(** The invariant of the client: the map is well formed and every
    recorded time is one of the readings taken so far. *)
Record inv (clock : nat → Z) (c : LedClient) : Prop := mkInv {
  inv_map : StdMap.ok (pending_requests c);
  inv_past :
    Forall (λ e, ∃ k, k ≤ clock_reads c ∧ e.2 = clock k) (pending_requests c)
}.

(** A clock for examples: one second between two readings. *)
Definition every_second (k : nat) : Z := Chrono.seconds (Z.of_nat k).

(** A sample for examples: the server's response to a request that
    switches the red LED on. *)
Definition response_to (id : N) : Sample LedResponse :=
  mkSample true (mkLedResponse true "LED control successful" RED true id).

(** What the server publishes for what the client wrote, as the batch the
    client's reader takes. *)
Definition served (c : LedClient) : list (Sample LedResponse) :=
  match Server.serve (mkSample true <$> request_writer c) Server.init with
  | Some s => mkSample true <$> Server.response_writer s
  | None => []
  end.

End Client.

(** ** The rest of the client: construction and [run] *)

Module ClientRun.
Import Client.

(** The constructor's wait for the server:
    [do { status = request_writer.publication_matched_status();
    sleep_for(100ms); } while (status.current_count() < 1);].
    [current_count k] is what the [k]-th poll reports.  The result is the
    number of polls made, each followed by one sleep; [None] when [fuel]
    turns were not enough for the loop to end. *)
Fixpoint wait_for_server (fuel : nat) (current_count : nat → Z) (poll : nat)
  : option nat :=
  match fuel with
  | 0 => None
  | S fuel' =>
      let status := current_count poll in
      if decide (status < 1)%Z
      then wait_for_server fuel' current_count (S poll)
      else Some (S poll)
  end.

(** [manualControl]. *)
Definition manualControl (steady_clock : nat → Chrono.time_point)
    (color : LedColor) (state : bool) (c : LedClient)
  : LedClient * list Event :=
  sendRequest steady_clock color state c.

(** The client in [run]: its members and the function-local
    [static auto last_request], which is initialised the first time the
    loop body reaches its declaration. *)
Record Running : Type := mkRunning {
  client : LedClient;
  last_request : option Chrono.time_point
}.

(** One turn of [while(running)]: [checkResponses()], then the bookkeeping
    of [last_request] (the call of [sendRandomRequest] is commented out in
    the source).  The sleep shows only in the clock. *)
Definition loop_turn (steady_clock : nat → Chrono.time_point)
    (samples : list (Sample LedResponse)) (r : Running)
  : Running * list Event :=
  let (c1, out) := checkResponses steady_clock samples (client r) in
  let (last, c2) :=
    match last_request r with
    | Some t => (t, c1)
    | None => now steady_clock c1
    end in
  let (t, c3) := now steady_clock c2 in
  let last' := if decide (t - last > Chrono.seconds 10)%Z then t else last in
  ({| client := c3; last_request := Some last' |}, out).

(** The loop, one batch of samples per turn made while [running] holds. *)
Fixpoint loop (steady_clock : nat → Chrono.time_point)
    (batches : list (list (Sample LedResponse))) (r : Running)
  : Running * list Event :=
  match batches with
  | [] => (r, [])
  | samples :: rest =>
      let (r1, out1) := loop_turn steady_clock samples r in
      let (r2, out2) := loop steady_clock rest r1 in
      (r2, out1 ++ out2)
  end.

(** [run]: the three initial requests, then the loop. *)
Definition LedClient_run (steady_clock : nat → Chrono.time_point)
    (batches : list (list (Sample LedResponse))) (c : LedClient)
  : Running * list Event :=
  let (c1, out1) := sendRequest steady_clock RED true c in
  let (c2, out2) := sendRequest steady_clock GREEN true c1 in
  let (c3, out3) := sendRequest steady_clock BLUE true c2 in
  let (r, out) := loop steady_clock batches
                    {| client := c3; last_request := None |} in
  (r, out1 ++ out2 ++ out3 ++ out).

(** *** Specification vocabulary *)

(** The ids of the timeout lines, and the responses of the matched
    blocks, in the order they were printed. *)
Definition timeout_ids (out : list Event) : list N :=
  omap (λ e, match e with TimeoutForRequest id => Some id | _ => None end) out.
Definition matched_responses (out : list Event) : list LedResponse :=
  omap (λ e, match e with ReceivedResponse r _ => Some r | _ => None end) out.

(** The batch holds a valid response to every pending request. *)
Definition answers_all (samples : list (Sample LedResponse)) (c : LedClient)
  : Prop :=
  ∀ k, k ∈ StdMap.keys (pending_requests c) →
    ∃ sample, sample ∈ samples ∧ valid sample = true ∧
              request_id (data sample) = k.

(** Older requests have smaller ids: along the map the keys increase and
    the recorded times do not decrease, and no key is above the counter. *)
Definition issued_before (e1 e2 : N * Z) : Prop :=
  (e1.1 < e2.1)%N ∧ (e1.2 ≤ e2.2)%Z.
Record issue_order (c : LedClient) : Prop := mkIssueOrder {
  order_times : StronglySorted issued_before (pending_requests c);
  order_keys :
    Forall (λ e : N * Z, (e.1 ≤ request_counter c)%N) (pending_requests c)
}.

(** A clock for examples whose readings are [gap] seconds apart. *)
Definition every (gap : Z) (k : nat) : Z := Chrono.seconds (gap * Z.of_nat k).

End ClientRun.

(** ** The rest of the server: the display and [run] *)

Module ServerRun.
Import Server.

Definition on_off (b : bool) : string := if b then "ON" else "OFF".

(** [simulateHardwareControl]: the four lines it prints.  The reads of
    [led_states[0]], [[1]] and [[2]] are defined inside the bounds of the
    array only. *)
Definition simulateHardwareControl (s : LedServer) : option (list string) :=
  red ← led_states s !! 0;
  green ← led_states s !! 1;
  blue ← led_states s !! 2;
  Some ["Current LED States:"%string;
        String.append "RED: " (on_off red);
        String.append "GREEN: " (on_off green);
        String.append "BLUE: " (on_off blue)].

(** The server in [run]: the object, the function-local
    [static auto last_display], the number of clock readings taken, and
    the blocks [simulateHardwareControl] printed, each with the reading at
    which it was printed. *)
Record Running : Type := mkRunning {
  server : LedServer;
  last_display : option Chrono.time_point;
  clock_reads : nat;
  displays : list (Chrono.time_point * list string)
}.

Definition start : Running :=
  {| server := init; last_display := None; clock_reads := 0; displays := [] |}.

(** One turn of [while (running)]: the samples taken are processed, the
    state is shown if more than [5s] passed since it was last shown, and
    the turn ends in the wait for the next request, which shows only in
    the clock. *)
Definition turn (steady_clock : nat → Chrono.time_point)
    (samples : list (Sample LedRequest)) (r : Running) : option Running :=
  match serve samples (server r) with
  | None => None
  | Some s1 =>
      let (last, reads1) :=
        match last_display r with
        | Some t => (t, clock_reads r)
        | None => (steady_clock (clock_reads r), S (clock_reads r))
        end in
      let now := steady_clock reads1 in
      if decide (now - last > Chrono.seconds 5)%Z then
        match simulateHardwareControl s1 with
        | Some lines =>
            Some {| server := s1; last_display := Some now;
                    clock_reads := S reads1;
                    displays := displays r ++ [(now, lines)] |}
        | None => None
        end
      else
        Some {| server := s1; last_display := Some last;
                clock_reads := S reads1; displays := displays r |}
  end.

Fixpoint turns (steady_clock : nat → Chrono.time_point)
    (batches : list (list (Sample LedRequest))) (r : Running)
  : option Running :=
  match batches with
  | [] => Some r
  | samples :: rest =>
      match turn steady_clock samples r with
      | Some r1 => turns steady_clock rest r1
      | None => None
      end
  end.

(** *** Specification vocabulary *)

(** The requests of the valid samples of a batch, in order. *)
Definition valid_requests (samples : list (Sample LedRequest))
  : list LedRequest :=
  data <$> filter (λ sample, valid sample = true) samples.

(** The response [processRequest] builds for a request. *)
Definition response_for (request : LedRequest) : LedResponse :=
  mkLedResponse true "LED control successful"
    (req_color request) (req_state request) (req_request_id request).

(** The displays are throttled: counted from the reading [first], every
    display comes more than [5s] after [first] and after the display before
    it, and [last_display] is not before any of them nor before [first]. *)
Record throttled (first : Chrono.time_point) (r : Running) : Prop := mkThrottled {
  throttled_gaps :
    StronglySorted (λ d1 d2 : Z * list string, (d2.1 - d1.1 > Chrono.seconds 5)%Z)
      (displays r);
  throttled_first :
    Forall (λ d : Z * list string, (d.1 - first > Chrono.seconds 5)%Z) (displays r);
  throttled_last :
    match last_display r with
    | Some l => (first ≤ l)%Z ∧ Forall (λ d : Z * list string, (d.1 ≤ l)%Z) (displays r)
    | None => displays r = []
    end
}.

(** The state last requested for a colour, if any request names it. *)
Definition last_state (c : LedColor) (requests : list LedRequest)
  : option bool :=
  req_state <$> last (filter (λ request, req_color request = c) requests).

End ServerRun.

(* ================================================================== *)
(** * Properties of the server *)
(* ================================================================== *)

Module ServerProofs.
Import Server.

Lemma init_ok : ok init.
Proof. reflexivity. Qed.

Lemma LedColor_to_int_range (c : LedColor) : (0 ≤ LedColor_to_int c < 3)%Z.
Proof. destruct c; simpl; lia. Qed.

Lemma LedColor_to_int_inj (c1 c2 : LedColor) :
  LedColor_to_int c1 = LedColor_to_int c2 → c1 = c2.
Proof. destruct c1, c2; simpl; intros H; try reflexivity; discriminate H. Qed.

Lemma array_store_in_bounds (a : list bool) (i : Z) (v : bool) :
  (0 ≤ i < Z.of_nat (length a))%Z →
  array_store a i v = Some (<[Z.to_nat i := v]> a).
Proof. intros Hi. unfold array_store. case_decide; [reflexivity | lia]. Qed.

(** What one call does to a well-shaped server, in closed form. *)
Lemma processRequest_eq (request : LedRequest) (s : LedServer) :
  ok s →
  processRequest request s =
    Some {| led_states :=
              <[Z.to_nat (LedColor_to_int (req_color request)) :=
                  req_state request]> (led_states s);
            response_writer :=
              response_writer s ++
                [mkLedResponse true "LED control successful"
                   (req_color request) (req_state request)
                   (req_request_id request)];
            cout :=
              cout s ++
                [ReceivedRequest (colorToString (req_color request))
                   (req_state request) (req_request_id request);
                 SentResponse (req_request_id request)] |}.
Proof.
  intros Hok. unfold processRequest.
  rewrite array_store_in_bounds; [reflexivity |].
  pose proof (LedColor_to_int_range (req_color request)) as Hr.
  unfold ok in Hok. rewrite Hok. lia.
Qed.

Lemma processRequest_ok (request : LedRequest) (s s' : LedServer) :
  ok s → processRequest request s = Some s' → ok s'.
Proof.
  intros Hok Hp. rewrite (processRequest_eq _ _ Hok) in Hp.
  injection Hp as <-. unfold ok in *. simpl. by rewrite length_insert.
Qed.

Lemma serve_ok (samples : list (Sample LedRequest)) :
  ∀ s, ok s → ∃ s', serve samples s = Some s' ∧ ok s'.
Proof.
  induction samples as [| sample rest IH]; intros s Hok; simpl.
  - eauto.
  - destruct (valid sample); [| by apply IH].
    destruct (processRequest (data sample) s) as [s1 |] eqn:Hp.
    + apply IH. by eapply processRequest_ok.
    + rewrite (processRequest_eq _ _ Hok) in Hp. discriminate Hp.
Qed.

(** C6: [processRequest] stores the requested state under the request's
    colour and publishes one response whose [success] is [true], whose
    message is the fixed text, and whose colour, state and id are those
    of the request; the new LED array and the response depend on the
    request and the LED array only. *)
Theorem processRequest_response (request : LedRequest) (s : LedServer) :
  ok s →
  ∃ s' response,
    processRequest request s = Some s' ∧
    LedState s' (req_color request) = Some (req_state request) ∧
    response_writer s' = response_writer s ++ [response] ∧
    success response = true ∧
    message response = "LED control successful"%string ∧
    color response = req_color request ∧
    state response = req_state request ∧
    request_id response = req_request_id request ∧
    ∀ s2, ok s2 → led_states s2 = led_states s →
      ∃ s2', processRequest request s2 = Some s2' ∧
             led_states s2' = led_states s' ∧
             response_writer s2' = response_writer s2 ++ [response].
Proof.
  intros Hok. eexists _, _.
  split; [by apply processRequest_eq |]. simpl.
  split.
  { unfold LedState. simpl. apply list_lookup_insert_eq.
    pose proof (LedColor_to_int_range (req_color request)).
    unfold ok in Hok. lia. }
  do 6 (split; [reflexivity |]).
  intros s2 Hok2 Heq. eexists. split; [by apply processRequest_eq |].
  simpl. by rewrite Heq.
Qed.

Lemma processRequest_response_witness :
  ok init ∧
  ∃ s' response,
    processRequest (mkLedRequest RED true 1) init = Some s' ∧
    LedState s' RED = Some true ∧
    response_writer s' = [response] ∧
    success response = true.
Proof.
  split; [reflexivity |].
  destruct (processRequest_response (mkLedRequest RED true 1) init)
    as (s' & response & H1 & H2 & H3 & H4 & _); [reflexivity |].
  exists s', response. auto.
Defined.

(** C7: processing the same request a second time leaves the LED array
    as the first call left it. *)
Theorem processRequest_idempotent (request : LedRequest) (s : LedServer) :
  ok s →
  ∃ s1 s2,
    processRequest request s = Some s1 ∧
    processRequest request s1 = Some s2 ∧
    led_states s2 = led_states s1 ∧
    ∀ c, LedState s2 c = LedState s1 c.
Proof.
  intros Hok.
  destruct (processRequest request s) as [s1 |] eqn:H1;
    [| rewrite (processRequest_eq _ _ Hok) in H1; discriminate H1].
  assert (Hok1 : ok s1) by (by eapply processRequest_ok).
  exists s1. eexists. split; [reflexivity |].
  split; [by apply processRequest_eq |].
  assert (Hleds : <[Z.to_nat (LedColor_to_int (req_color request)) :=
                      req_state request]> (led_states s1) = led_states s1).
  { rewrite (processRequest_eq _ _ Hok) in H1. injection H1 as <-. simpl.
    apply list_insert_insert_eq. }
  simpl. split; [exact Hleds |].
  intros c. unfold LedState. simpl. by rewrite Hleds.
Qed.

Lemma processRequest_idempotent_witness :
  ok init ∧
  ∃ s1 s2,
    processRequest (mkLedRequest BLUE true 7) init = Some s1 ∧
    processRequest (mkLedRequest BLUE true 7) s1 = Some s2 ∧
    led_states s2 = led_states s1.
Proof.
  split; [reflexivity |].
  destruct (processRequest_idempotent (mkLedRequest BLUE true 7) init)
    as (s1 & s2 & H1 & H2 & H3 & _); [reflexivity |].
  exists s1, s2. auto.
Defined.

(** C9: the index [static_cast<int>(request.color())] is 0, 1 or 2 for
    each of the three enumerators, so the store into the three-element
    array is inside its bounds and [processRequest] is defined. *)
Theorem color_index_in_bounds (request : LedRequest) (s : LedServer) :
  ok s →
  let color_index := LedColor_to_int (req_color request) in
  (color_index = 0 ∨ color_index = 1 ∨ color_index = 2)%Z ∧
  (0 ≤ color_index < Z.of_nat (length (led_states s)))%Z ∧
  is_Some (array_store (led_states s) color_index (req_state request)) ∧
  is_Some (processRequest request s).
Proof.
  intros Hok color_index.
  pose proof (LedColor_to_int_range (req_color request)) as Hr.
  fold color_index in Hr.
  split; [lia |].
  assert (Hb : (0 ≤ color_index < Z.of_nat (length (led_states s)))%Z).
  { unfold ok in Hok. rewrite Hok. lia. }
  split; [exact Hb |].
  split.
  - rewrite array_store_in_bounds by exact Hb. by eexists.
  - rewrite processRequest_eq by exact Hok. by eexists.
Qed.

Lemma color_index_in_bounds_witness :
  ok init ∧ is_Some (processRequest (mkLedRequest BLUE false 3) init).
Proof.
  split; [reflexivity |].
  apply (color_index_in_bounds (mkLedRequest BLUE false 3) init).
  reflexivity.
Defined.

(** C10: [processRequest] changes the LED state of the request's colour
    only: every other colour reads what it read before. *)
Theorem processRequest_frame (request : LedRequest) (s : LedServer)
    (c : LedColor) :
  ok s → c ≠ req_color request →
  ∃ s', processRequest request s = Some s' ∧ LedState s' c = LedState s c.
Proof.
  intros Hok Hne. eexists. split; [by apply processRequest_eq |].
  unfold LedState. simpl. apply list_lookup_insert_ne.
  intros Heq. apply Hne. symmetry. apply LedColor_to_int_inj.
  pose proof (LedColor_to_int_range c).
  pose proof (LedColor_to_int_range (req_color request)). lia.
Qed.

Lemma processRequest_frame_witness :
  ok init ∧ GREEN ≠ RED ∧
  ∃ s', processRequest (mkLedRequest RED true 1) init = Some s' ∧
        LedState s' GREEN = LedState init GREEN.
Proof.
  split; [reflexivity |]. split; [discriminate |].
  apply (processRequest_frame (mkLedRequest RED true 1) init GREEN);
    [reflexivity | discriminate].
Defined.

End ServerProofs.

(* ================================================================== *)
(** * Properties of the map *)
(* ================================================================== *)

Module StdMapProofs.
Import StdMap.

Implicit Types (m : StdMap.t) (k : N) (v : Z).

Lemma get_nil k : get k [] = None.
Proof. reflexivity. Qed.

Lemma get_cons k k' v' m :
  get k ((k', v') :: m) = if decide (k' = k) then Some v' else get k m.
Proof. unfold get, deref. simpl. by case_decide. Qed.

Lemma find_le k m : find k m ≤ length m.
Proof.
  induction m as [| [k' v'] m IH]; simpl; [lia |]. case_decide; lia.
Qed.

(** A successful [find] points at a node with the key looked for. *)
Lemma deref_find k m :
  find k m ≠ end_ m →
  ∃ v, deref m (find k m) = Some (k, v) ∧ get k m = Some v.
Proof.
  unfold end_, get, deref.
  induction m as [| [k' v'] m IH]; simpl; [done |].
  case_decide as Hk; simpl.
  - subst k'. eauto.
  - intros Hne. apply IH. lia.
Qed.

Lemma find_end k m : find k m = end_ m → get k m = None.
Proof.
  unfold end_, get, deref. intros Hf.
  rewrite (lookup_ge_None_2 m (find k m)) by lia. done.
Qed.

Lemma find_end_iff k m : find k m = end_ m ↔ get k m = None.
Proof.
  split; [apply find_end |].
  intros Hnone. destruct (decide (find k m = end_ m)) as [| Hne]; [done |].
  destruct (deref_find _ _ Hne) as (v & _ & Hv). congruence.
Qed.

Lemma get_None_keys k m : get k m = None ↔ k ∉ keys m.
Proof.
  unfold keys. induction m as [| [k' v'] m IH].
  - rewrite get_nil. split; [intros _; apply not_elem_of_nil | done].
  - rewrite get_cons, fmap_cons, not_elem_of_cons. simpl.
    destruct (decide (k' = k)) as [-> | Hk]; [split; [done | tauto] |].
    rewrite IH. split; [intros Hm; split; [congruence | done] | tauto].
Qed.

Lemma get_Some_elem_of k v m : get k m = Some v → (k, v) ∈ m.
Proof.
  induction m as [| [k' v'] m IH]; [done |].
  rewrite get_cons. case_decide.
  - intros [= ->]. subst. left.
  - intros. right. auto.
Qed.

Lemma ok_nil : ok [].
Proof. constructor. Qed.

Lemma ok_cons k v m :
  ok ((k, v) :: m) ↔ Forall (N.lt k) (keys m) ∧ ok m.
Proof. unfold ok, keys. rewrite fmap_cons. apply StronglySorted_cons. Qed.

Lemma ok_head_fresh k v m : ok ((k, v) :: m) → get k m = None.
Proof.
  rewrite ok_cons, get_None_keys. intros [Hall _] Hin.
  rewrite Forall_forall in Hall. specialize (Hall _ Hin). lia.
Qed.

(** The keys of a well-formed map are pairwise distinct. *)
Lemma ok_NoDup m : ok m → NoDup (keys m).
Proof.
  induction m as [| [k v] m IH]; intros Hok; [constructor |].
  pose proof (ok_head_fresh _ _ _ Hok) as Hfresh.
  apply ok_cons in Hok as [_ Hok]. unfold keys. rewrite fmap_cons.
  constructor; [by apply get_None_keys | by apply IH].
Qed.

(** In a well-formed map a node is found under its key. *)
Lemma elem_of_get k v m : ok m → (k, v) ∈ m → get k m = Some v.
Proof.
  induction m as [| [k' v'] m IH]; intros Hok Hin.
  - by apply elem_of_nil in Hin.
  - rewrite get_cons. apply elem_of_cons in Hin as [[= <- <-] | Hin].
    + by rewrite decide_True.
    + pose proof (ok_head_fresh _ _ _ Hok) as Hfresh.
      apply ok_cons in Hok as [_ Hok]. case_decide as Hk.
      * subst k'. rewrite (IH Hok Hin) in Hfresh. discriminate Hfresh.
      * auto.
Qed.

(** *** [m[k] = v] *)

Lemma get_assign k' k v m :
  get k' (assign k v m) = if decide (k' = k) then Some v else get k' m.
Proof.
  induction m as [| [k0 v0] m IH]; simpl.
  - rewrite get_cons, get_nil.
    destruct (decide (k = k')), (decide (k' = k)); congruence.
  - destruct (decide (k < k0)%N); [| destruct (decide (k = k0))];
      rewrite ?get_cons, ?IH;
      destruct (decide (k = k')), (decide (k' = k)), (decide (k0 = k'));
      subst; congruence || lia.
Qed.

Lemma keys_assign_bound k0 k v m :
  (k0 < k)%N → Forall (N.lt k0) (keys m) → Forall (N.lt k0) (keys (assign k v m)).
Proof.
  unfold keys. intros Hlt.
  induction m as [| [k1 v1] m IH]; simpl; intros Hall.
  - by repeat constructor.
  - apply Forall_cons in Hall as [H1 Hall]. simpl in H1.
    destruct (decide (k < k1)%N); [| destruct (decide (k = k1))];
      rewrite ?fmap_cons; simpl;
      repeat (apply Forall_cons; split); auto.
Qed.

Lemma assign_ok k v m : ok m → ok (assign k v m).
Proof.
  induction m as [| [k0 v0] m IH]; simpl; intros Hok.
  - apply ok_cons. split; [constructor | apply ok_nil].
  - pose proof Hok as Hok0. apply ok_cons in Hok as [Hall Hok].
    case_decide as Hlt; [| case_decide as Heq].
    + apply ok_cons. split; [| done].
      unfold keys. rewrite fmap_cons. apply Forall_cons. split; [done |].
      eapply Forall_impl; [exact Hall |]. simpl. intros; lia.
    + subst k0. apply ok_cons. done.
    + apply ok_cons. split; [| auto].
      apply keys_assign_bound; [lia | done].
Qed.

Lemma elem_of_assign e k v m :
  e ∈ assign k v m → e = (k, v) ∨ e ∈ m.
Proof.
  induction m as [| [k0 v0] m IH]; simpl.
  - rewrite list_elem_of_singleton. auto.
  - destruct (decide (k < k0)%N); [| destruct (decide (k = k0))];
      rewrite !elem_of_cons; intros; intuition.
Qed.

(** *** [m.erase(m.find(k))] *)

Lemma get_erase_find k' k m :
  ok m →
  get k' (erase (find k m) m).1 =
    if decide (k' = k) then None else get k' m.
Proof.
  unfold erase. simpl.
  induction m as [| [k0 v0] m IH]; intros Hok; simpl.
  - rewrite get_nil. by case_decide.
  - pose proof (ok_head_fresh _ _ _ Hok) as Hfresh.
    apply ok_cons in Hok as [_ Hok].
    destruct (decide (k0 = k)) as [-> | H0]; simpl.
    + destruct (decide (k' = k)) as [-> | Hk]; [done |].
      rewrite get_cons. by rewrite decide_False.
    + rewrite !get_cons, (IH Hok).
      destruct (decide (k0 = k')) as [<- | Hk]; [by rewrite decide_False |].
      done.
Qed.

Lemma keys_delete_bound k0 i m :
  Forall (N.lt k0) (keys m) → Forall (N.lt k0) (keys (delete i m)).
Proof.
  unfold keys. intros Hall. rewrite Forall_forall in *.
  intros x Hx. apply Hall. apply list_elem_of_fmap in Hx as (e & -> & He).
  apply list_elem_of_fmap. exists e. split; [done |].
  by eapply list_elem_of_delete_inv.
Qed.

Lemma erase_ok i m : ok m → ok (erase i m).1.
Proof.
  unfold erase. simpl. revert i.
  induction m as [| [k0 v0] m IH]; intros i Hok; [by destruct i |].
  apply ok_cons in Hok as [Hall Hok]. destruct i as [| i]; simpl; [done |].
  apply ok_cons. split; [by apply keys_delete_bound | auto].
Qed.

Lemma elem_of_erase e i m : e ∈ (erase i m).1 → e ∈ m.
Proof.
  unfold erase. simpl. apply list_elem_of_delete_inv.
Qed.

(** *** Removing the nodes that fail a test *)

Section Filter.
Context (P : N * Z → Prop) `{!∀ e, Decision (P e)}.

Lemma filter_ok m : ok m → ok (filter P m).
Proof.
  induction m as [| [k0 v0] m IH]; intros Hok; [done |].
  apply ok_cons in Hok as [Hall Hok]. rewrite filter_cons.
  case_decide; [| auto]. apply ok_cons. split; [| auto].
  rewrite Forall_forall in *. intros x Hx. apply Hall.
  unfold keys in *. apply list_elem_of_fmap in Hx as (e & -> & He).
  apply list_elem_of_fmap. exists e. split; [done |].
  by apply list_elem_of_filter in He as [_ He].
Qed.

Lemma get_filter k m :
  ok m →
  get k (filter P m) =
    match get k m with
    | Some v => if decide (P (k, v)) then Some v else None
    | None => None
    end.
Proof.
  induction m as [| [k0 v0] m IH]; intros Hok; [done |].
  pose proof (ok_head_fresh _ _ _ Hok) as Hfresh.
  apply ok_cons in Hok as [_ Hok].
  rewrite filter_cons, get_cons.
  destruct (decide (P (k0, v0))) as [HP | HP].
  - rewrite get_cons. case_decide as Hk; [| auto].
    subst k0. by rewrite decide_True.
  - rewrite (IH Hok). case_decide as Hk; [| done].
    subst k0. rewrite Hfresh, decide_False; done.
Qed.
End Filter.

End StdMapProofs.


(* ================================================================== *)
(** * Properties of the client *)
(* ================================================================== *)

Module ClientProofs.
Import Client StdMapProofs.

Create HintDb stdmap.
#[local] Hint Resolve assign_ok erase_ok filter_ok ok_nil : stdmap.

(** ** Counting printed messages *)

Lemma count_app p out1 out2 : count p (out1 ++ out2) = count p out1 + count p out2.
Proof. induction out1 as [| e out1 IH]; simpl; [done |]. rewrite IH. lia. Qed.

Lemma every_second_monotone : monotone every_second.
Proof. intros i j Hij. unfold every_second, Chrono.seconds. lia. Qed.

(** The messages of a sweep over a set of expired nodes: at most one per
    key, because the keys of a map are distinct. *)
Lemma count_timeouts (P : N * Z → Prop) `{!∀ e, Decision (P e)} R m :
  StdMap.ok m →
  count (is_timeout R) (TimeoutForRequest <$> StdMap.keys (filter P m)) =
    match StdMap.get R m with
    | Some issued => if decide (P (R, issued)) then 1 else 0
    | None => 0
    end.
Proof.
  unfold StdMap.keys.
  induction m as [| [k v] m IH]; intros Hok; [done |].
  pose proof (ok_head_fresh _ _ _ Hok) as Hfresh.
  apply ok_cons in Hok as [_ Hok]. specialize (IH Hok).
  rewrite filter_cons, get_cons.
  destruct (decide (k = R)) as [-> | Hk].
  - rewrite Hfresh in IH. destruct (decide (P (R, v))); [| done].
    rewrite !fmap_cons. simpl. rewrite bool_decide_eq_true_2 by done. lia.
  - destruct (decide (P (k, v))); [| done].
    rewrite !fmap_cons. simpl. rewrite bool_decide_eq_false_2 by done. done.
Qed.

Lemma count_match_timeouts R (ks : list N) :
  count (is_match R) (TimeoutForRequest <$> ks) = 0.
Proof. induction ks; simpl; done. Qed.

Lemma count_sending_timeouts R (ks : list N) :
  count (is_sending R) (TimeoutForRequest <$> ks) = 0.
Proof. induction ks; simpl; done. Qed.

(** ** The second loop of [checkResponses] *)

(** The loop at position [length pre], the nodes of [pre] having been kept:
    it leaves through its condition, keeps the nodes that are not expired,
    prints one line per expired node, and looks at every remaining node
    once. *)
Lemma sweep_loop_spec now (rest : StdMap.t) :
  ∀ (pre : StdMap.t) fuel, length rest ≤ fuel →
    let r := sweep_loop fuel now (length pre) (pre ++ rest) in
    swept_map r = pre ++ filter (λ e, ¬ (now - e.2 > TIMEOUT)%Z) rest ∧
    swept_it r = StdMap.end_ (swept_map r) ∧
    swept_out r =
      TimeoutForRequest <$>
        StdMap.keys (filter (λ e, (now - e.2 > TIMEOUT)%Z) rest) ∧
    swept_visited r = StdMap.keys rest.
Proof.
  unfold StdMap.end_, StdMap.keys.
  induction rest as [| [id issued] rest IH]; intros pre fuel Hfuel.
  - rewrite app_nil_r. destruct fuel; simpl.
    + by rewrite app_nil_r.
    + rewrite decide_False by (unfold StdMap.end_; lia). simpl.
      by rewrite app_nil_r.
  - destruct fuel as [| fuel]; [simpl in Hfuel; lia |].
    simpl in Hfuel. cbn [sweep_loop].
    rewrite decide_True
      by (unfold StdMap.end_; rewrite length_app; simpl; lia).
    unfold StdMap.deref. rewrite list_lookup_middle by done.
    rewrite !filter_cons. cbn [snd].
    destruct (decide (now - issued > TIMEOUT)%Z) as [Hold | Hyoung].
    + rewrite decide_False by (intros Hn; apply Hn, Hold).
      unfold StdMap.erase. rewrite delete_middle.
      destruct (IH pre fuel ltac:(lia)) as (Hm & Hit & Hout & Hvis).
      cbn [swept_map swept_it swept_out swept_visited].
      rewrite Hm, Hout, Hvis, !fmap_cons. repeat split; try done.
      by rewrite Hit, Hm.
    + rewrite decide_True by done.
      specialize (IH (pre ++ [(id, issued)]) fuel ltac:(lia)).
      rewrite <- !(assoc_L (++)), length_app in IH. simpl in IH.
      replace (length pre + 1) with (S (length pre)) in IH by lia.
      destruct IH as (Hm & Hit & Hout & Hvis).
      cbn [swept_map swept_it swept_out swept_visited].
      rewrite Hm, Hout, Hvis, !fmap_cons. repeat split; try done.
      by rewrite Hit, Hm.
Qed.

(** With as many turns as the map has nodes the loop leaves through its
    condition [it != end()]. *)
Lemma sweep_loop_exits now (m : StdMap.t) :
  let r := sweep_loop (length m) now (StdMap.begin m) m in
  swept_it r = StdMap.end_ (swept_map r).
Proof. apply (sweep_loop_spec now m [] (length m)). done. Qed.

Section WithClock.

Context (clock : nat → Z).

Implicit Types (c : LedClient) (R : N).

Lemma sweep_eq c :
  sweep clock c =
    (let now := clock (clock_reads c) in
     {| request_counter := request_counter c;
        pending_requests :=
          filter (λ e, ¬ (now - e.2 > TIMEOUT)%Z) (pending_requests c);
        request_writer := request_writer c;
        clock_reads := S (clock_reads c) |},
     TimeoutForRequest <$>
       StdMap.keys
         (filter (λ e, (clock (clock_reads c) - e.2 > TIMEOUT)%Z)
            (pending_requests c))).
Proof.
  unfold sweep, now. cbn [pending_requests].
  destruct (sweep_loop_spec (clock (clock_reads c)) (pending_requests c) []
              (length (pending_requests c)) ltac:(done))
    as (Hm & _ & Hout & _).
  simpl in Hm, Hout. unfold StdMap.begin. rewrite Hout.
  unfold set_pending. simpl. by rewrite Hm.
Qed.

(** ** The first loop of [checkResponses] *)

Lemma drain_skip sample rest c :
  valid sample = false ∨
  StdMap.get (request_id (data sample)) (pending_requests c) = None →
  drain clock (sample :: rest) c = drain clock rest c.
Proof.
  intros [Hv | Hg]; simpl.
  - by rewrite Hv.
  - destruct (valid sample); [| done].
    apply find_end_iff in Hg. rewrite decide_False; [done |].
    intros Hn. apply Hn, Hg.
Qed.

Lemma drain_match sample rest c issued :
  valid sample = true →
  StdMap.get (request_id (data sample)) (pending_requests c) = Some issued →
  drain clock (sample :: rest) c =
    (let r := drain clock rest (matched (request_id (data sample)) c) in
     (r.1,
      ReceivedResponse (data sample)
        (Chrono.duration_cast_milliseconds (clock (clock_reads c) - issued)%Z)
      :: r.2)).
Proof.
  intros Hv Hg. simpl. rewrite Hv.
  assert (Hne : StdMap.find (request_id (data sample)) (pending_requests c)
                ≠ StdMap.end_ (pending_requests c)).
  { intros He. apply find_end in He. congruence. }
  rewrite decide_True by exact Hne.
  destruct (deref_find _ _ Hne) as (v & Hd & Hv'). rewrite Hd.
  assert (v = issued) as -> by congruence.
  unfold matched, set_pending. simpl.
  by destruct (drain clock rest _).
Qed.

Lemma pending_matched R R' c :
  StdMap.ok (pending_requests c) →
  StdMap.get R' (pending_requests (matched R c)) =
    if decide (R' = R) then None else StdMap.get R' (pending_requests c).
Proof. intros Hok. unfold matched. simpl. by apply get_erase_find. Qed.

(** What the first loop does, whatever the samples: it only removes nodes,
    it prints one block per node it removes and nothing else, and no valid
    sample leaves its id in the map. *)
Lemma drain_props samples :
  ∀ c, StdMap.ok (pending_requests c) →
    let c' := (drain clock samples c).1 in
    let out := (drain clock samples c).2 in
    StdMap.ok (pending_requests c') ∧
    request_counter c' = request_counter c ∧
    request_writer c' = request_writer c ∧
    clock_reads c ≤ clock_reads c' ∧
    (∀ e, e ∈ pending_requests c' → e ∈ pending_requests c) ∧
    (∀ R, StdMap.get R (pending_requests c') = None ∨
          StdMap.get R (pending_requests c') = StdMap.get R (pending_requests c)) ∧
    (∀ R, count (is_match R) out + pending R c' = pending R c) ∧
    (∀ R, count (is_timeout R) out = 0) ∧
    (∀ R, count (is_sending R) out = 0) ∧
    (∀ sample, sample ∈ samples → valid sample = true →
       StdMap.get (request_id (data sample)) (pending_requests c') = None).
Proof.
  induction samples as [| sample rest IH]; intros c Hok.
  - simpl. repeat split; auto. intros ? Hin. by apply elem_of_nil in Hin.
  - destruct (valid sample) eqn:Hv;
      [destruct (StdMap.get (request_id (data sample)) (pending_requests c))
         as [issued |] eqn:Hg |].
    + rewrite (drain_match _ _ _ _ Hv Hg). cbn zeta. cbn [fst snd].
      set (R0 := request_id (data sample)) in *.
      assert (Hok2 : StdMap.ok (pending_requests (matched R0 c)))
        by (unfold matched; cbn [pending_requests]; auto with stdmap).
      destruct (IH _ Hok2) as (H1 & H2 & H3 & H4 & H5 & H6 & H7 & H8 & H9 & H10).
      split; [exact H1 |]. split; [exact H2 |]. split; [exact H3 |].
      split; [simpl in H4; lia |].
      split.
      { intros e He. apply H5 in He. unfold matched in He.
        cbn [pending_requests] in He. by eapply elem_of_erase. }
      split.
      { intros R. destruct (H6 R) as [Hn | He]; [by left |].
        rewrite He, pending_matched by done. case_decide; auto. }
      split.
      { intros R. specialize (H7 R). unfold pending in *.
        rewrite pending_matched in H7 by done. cbn [count is_match].
        destruct (decide (R = R0)) as [-> | Hne].
        - rewrite bool_decide_eq_true_2 by done. rewrite Hg. lia.
        - rewrite bool_decide_eq_false_2 by (fold R0; congruence). lia. }
      split; [intros R; cbn [count is_timeout]; by rewrite H8 |].
      split; [intros R; cbn [count is_sending]; by rewrite H9 |].
      intros s Hs Hvs. apply elem_of_cons in Hs as [-> | Hs]; [| auto].
      fold R0. destruct (H6 R0) as [Hn | He]; [done |].
      rewrite He, pending_matched by done. by rewrite decide_True.
    + rewrite drain_skip by auto.
      destruct (IH _ Hok) as (H1 & H2 & H3 & H4 & H5 & H6 & H7 & H8 & H9 & H10).
      repeat (split; [done |]).
      intros s Hs Hvs. apply elem_of_cons in Hs as [-> | Hs]; [| auto].
      destruct (H6 (request_id (data sample))) as [Hn | He]; congruence.
    + rewrite drain_skip by auto.
      destruct (IH _ Hok) as (H1 & H2 & H3 & H4 & H5 & H6 & H7 & H8 & H9 & H10).
      repeat (split; [done |]).
      intros s Hs Hvs. apply elem_of_cons in Hs as [-> | Hs]; [| auto].
      congruence.
Qed.

(** ** The sweep, as seen from the map *)

Lemma sweep_props c :
  StdMap.ok (pending_requests c) →
  let now := clock (clock_reads c) in
  let c' := (sweep clock c).1 in
  let out := (sweep clock c).2 in
  StdMap.ok (pending_requests c') ∧
  request_counter c' = request_counter c ∧
  request_writer c' = request_writer c ∧
  clock_reads c' = S (clock_reads c) ∧
  (∀ e, e ∈ pending_requests c' → e ∈ pending_requests c) ∧
  (∀ R, StdMap.get R (pending_requests c') =
          match StdMap.get R (pending_requests c) with
          | Some issued =>
              if decide (now - issued > TIMEOUT)%Z then None else Some issued
          | None => None
          end) ∧
  (∀ R, count (is_timeout R) out =
          match StdMap.get R (pending_requests c) with
          | Some issued => if decide (now - issued > TIMEOUT)%Z then 1 else 0
          | None => 0
          end) ∧
  (∀ R, count (is_match R) out = 0) ∧
  (∀ R, count (is_sending R) out = 0).
Proof.
  intros Hok. rewrite sweep_eq. cbn zeta. cbn [fst snd pending_requests
    request_counter request_writer clock_reads].
  split; [auto with stdmap |]. do 3 (split; [done |]).
  split; [intros e He; by apply list_elem_of_filter in He as [_ He] |].
  split.
  { intros R. rewrite get_filter by done.
    destruct (StdMap.get R (pending_requests c)) as [issued |]; [| done].
    cbn [snd]. destruct (decide (clock (clock_reads c) - issued > TIMEOUT)%Z).
    - by rewrite decide_False by tauto.
    - by rewrite decide_True. }
  split; [intros R; by rewrite count_timeouts |].
  split; intros R; [apply count_match_timeouts | apply count_sending_timeouts].
Qed.

(** ** The invariant *)

Lemma init_inv : inv clock init.
Proof. split; [apply ok_nil | constructor]. Qed.

(** A step that only removes nodes and only reads the clock keeps the
    invariant. *)
Lemma inv_shrink c c' :
  inv clock c →
  StdMap.ok (pending_requests c') →
  (∀ e, e ∈ pending_requests c' → e ∈ pending_requests c) →
  clock_reads c ≤ clock_reads c' →
  inv clock c'.
Proof.
  intros [Hok Hpast] Hok' Hsub Hreads. split; [done |].
  rewrite Forall_forall in *. intros e He.
  destruct (Hpast e (Hsub e He)) as (k & Hk & Hek). exists k. split; [lia | done].
Qed.

Lemma sendRequest_eq color state c :
  sendRequest clock color state c =
    (let id := Word.pre_increment (request_counter c) in
     {| request_counter := id;
        pending_requests :=
          StdMap.assign id (clock (clock_reads c)) (pending_requests c);
        request_writer := request_writer c ++ [mkLedRequest color state id];
        clock_reads := S (clock_reads c) |},
     [SendingRequest (colorToString color) state
        (Word.pre_increment (request_counter c))]).
Proof. reflexivity. Qed.

Lemma sendRequest_inv color state c :
  inv clock c → inv clock (sendRequest clock color state c).1.
Proof.
  intros [Hok Hpast]. rewrite sendRequest_eq. split; simpl.
  - auto with stdmap.
  - rewrite Forall_forall in *. intros e He.
    apply elem_of_assign in He as [-> | He]; simpl.
    + exists (clock_reads c). split; [lia | done].
    + destruct (Hpast e He) as (k & Hk & Hek). exists k. split; [lia | done].
Qed.

Lemma drain_inv samples c :
  inv clock c → inv clock (drain clock samples c).1.
Proof.
  intros Hinv.
  destruct (drain_props samples c (inv_map _ _ Hinv))
    as (H1 & _ & _ & H4 & H5 & _).
  by eapply inv_shrink.
Qed.

Lemma sweep_inv c : inv clock c → inv clock (sweep clock c).1.
Proof.
  intros Hinv.
  destruct (sweep_props c (inv_map _ _ Hinv)) as (H1 & _ & _ & H4 & H5 & _).
  eapply inv_shrink; eauto. lia.
Qed.

Lemma checkResponses_eq samples c :
  checkResponses clock samples c =
    ((sweep clock (drain clock samples c).1).1,
     (drain clock samples c).2 ++ (sweep clock (drain clock samples c).1).2).
Proof.
  unfold checkResponses. destruct (drain clock samples c) as [c1 out1].
  simpl. by destruct (sweep clock c1).
Qed.

Lemma checkResponses_inv samples c :
  inv clock c → inv clock (checkResponses clock samples c).1.
Proof.
  intros Hinv. rewrite checkResponses_eq. simpl.
  by apply sweep_inv, drain_inv.
Qed.

Lemma run_cons s steps c :
  run clock (s :: steps) c =
    ((run clock steps (step clock s c).1).1,
     (step clock s c).2 ++ (run clock steps (step clock s c).1).2).
Proof.
  simpl. destruct (step clock s c) as [c1 out1]. simpl.
  by destruct (run clock steps c1).
Qed.


(** Every state a session reaches from a state with the invariant has
    the invariant; the initial state has it. *)
Lemma run_inv steps :
  ∀ c, inv clock c → inv clock (run clock steps c).1.
Proof.
  induction steps as [| s steps IH]; intros c Hinv; [done |].
  rewrite run_cons. simpl. apply IH.
  destruct s; simpl; [by apply sendRequest_inv | by apply checkResponses_inv].
Qed.

(** The clock counts nanoseconds in a signed 64-bit integer.  While its
    readings stay in the non-negative half of that range, every elapsed
    time [now - it->second] the client computes is in range as well, so no
    subtraction overflows. *)
Lemma elapsed_representable c :
  monotone clock → inv clock c →
  (∀ k, 0 ≤ clock k < 2 ^ 63)%Z →
  ∀ now_reading, clock_reads c ≤ now_reading →
    Forall (λ e, (0 ≤ clock now_reading - e.2 < 2 ^ 63)%Z) (pending_requests c).
Proof.
  intros Hmono [_ Hpast] Hrange j Hj. rewrite Forall_forall in *.
  intros e He. destruct (Hpast e He) as (k & Hk & ->).
  pose proof (Hmono k j ltac:(lia)). pose proof (Hrange k). pose proof (Hrange j).
  lia.
Qed.

(** ** Matching responses *)

(** C1: a valid response whose id is pending is matched: the loop prints
    exactly one block for it, with the time elapsed since the request was
    sent, in milliseconds and not negative (the clock is steady and the
    recorded time is an earlier reading); the id leaves the map and no
    other node changes; delivering the same response again prints nothing
    and changes nothing; and in any batch that contains the response,
    whatever else the batch holds, the id is matched exactly once. *)
Theorem drain_matches_once (sample : Sample LedResponse) c issued :
  monotone clock → inv clock c →
  valid sample = true →
  StdMap.get (request_id (data sample)) (pending_requests c) = Some issued →
  let R := request_id (data sample) in
  let latency :=
    Chrono.duration_cast_milliseconds (clock (clock_reads c) - issued)%Z in
  let c1 := (drain clock [sample] c).1 in
  (drain clock [sample] c).2 = [ReceivedResponse (data sample) latency] ∧
  (0 ≤ latency)%Z ∧
  StdMap.get R (pending_requests c1) = None ∧
  (∀ R', R' ≠ R →
     StdMap.get R' (pending_requests c1) = StdMap.get R' (pending_requests c)) ∧
  drain clock [sample] c1 = (c1, []) ∧
  ∀ before after,
    let batch := drain clock (before ++ sample :: after) c in
    count (is_match R) batch.2 = 1 ∧
    StdMap.get R (pending_requests batch.1) = None.
Proof.
  intros Hmono Hinv Hv Hg R latency c1.
  pose proof (inv_map _ _ Hinv) as Hok.
  assert (Hc1 : c1 = matched R c).
  { unfold c1. by rewrite (drain_match _ _ _ _ Hv Hg). }
  assert (Hgone : StdMap.get R (pending_requests c1) = None).
  { rewrite Hc1, pending_matched by done. by rewrite decide_True. }
  split; [by rewrite (drain_match _ _ _ _ Hv Hg) |].
  split.
  { unfold latency, Chrono.duration_cast_milliseconds.
    apply Z.quot_pos; [| lia].
    pose proof (inv_past _ _ Hinv) as Hpast. rewrite Forall_forall in Hpast.
    destruct (Hpast _ (get_Some_elem_of _ _ _ Hg)) as (k & Hk & Hek).
    simpl in Hek. specialize (Hmono _ _ Hk). lia. }
  split; [exact Hgone |].
  split.
  { intros R' Hne. rewrite Hc1, pending_matched by done.
    by rewrite decide_False. }
  split.
  { rewrite drain_skip by (right; exact Hgone). done. }
  intros before after batch.
  destruct (drain_props (before ++ sample :: after) c Hok)
    as (_ & _ & _ & _ & _ & _ & H7 & _ & _ & H10).
  assert (Hnone : StdMap.get R (pending_requests batch.1) = None).
  { apply H10; [| done]. apply elem_of_app. right. left. }
  split; [| exact Hnone].
  specialize (H7 R). unfold pending in H7. fold batch in H7.
  rewrite Hnone in H7. unfold R in H7 at 2. rewrite Hg in H7. lia.
Qed.

(** C8: a response whose id is not in the map, and a sample the transport
    marks invalid, are passed over: nothing is printed, the client is
    unchanged, the rest of the batch is handled as if the sample were not
    there, and for an invalid sample the outcome does not depend on the
    data it carries. *)
Theorem drain_discards (sample : Sample LedResponse) rest c :
  valid sample = false ∨
  StdMap.get (request_id (data sample)) (pending_requests c) = None →
  drain clock [sample] c = (c, []) ∧
  drain clock (sample :: rest) c = drain clock rest c ∧
  checkResponses clock (sample :: rest) c = checkResponses clock rest c ∧
  (valid sample = false →
   ∀ d, drain clock (mkSample false d :: rest) c = drain clock (sample :: rest) c).
Proof.
  intros Hskip.
  split; [by rewrite drain_skip |].
  split; [by rewrite drain_skip |].
  split; [by rewrite !checkResponses_eq, drain_skip |].
  intros Hv d. by rewrite !drain_skip by auto.
Qed.

(** ** Sweeping *)

(** C2, with the comparison the code makes ([now - issued > 5s], strict):
    the loop leaves through its condition having looked at every node of
    the map once, in key order; it keeps exactly the nodes that are not
    expired and prints one timeout line per expired node.  So a pending
    id gets exactly one line, and leaves the map, at a sweep whose clock
    reading is more than five seconds past its time; at any earlier sweep
    it gets none and stays with its time; an id that is not in the map
    gets none. *)
Theorem sweep_timeouts c :
  StdMap.ok (pending_requests c) →
  let now := clock (clock_reads c) in
  let m := pending_requests c in
  let r := sweep_loop (length m) now (StdMap.begin m) m in
  let expired := λ e : N * Z, (now - e.2 > TIMEOUT)%Z in
  TIMEOUT = 5000000000%Z ∧
  swept_it r = StdMap.end_ (swept_map r) ∧
  swept_visited r = StdMap.keys m ∧ NoDup (StdMap.keys m) ∧
  swept_map r = filter (λ e, ¬ expired e) m ∧
  swept_out r = TimeoutForRequest <$> StdMap.keys (filter expired m) ∧
  pending_requests (sweep clock c).1 = swept_map r ∧
  (sweep clock c).2 = swept_out r ∧
  ∀ R,
    match StdMap.get R m with
    | Some issued =>
        if decide (now - issued > TIMEOUT)%Z
        then count (is_timeout R) (swept_out r) = 1 ∧
             StdMap.get R (swept_map r) = None
        else count (is_timeout R) (swept_out r) = 0 ∧
             StdMap.get R (swept_map r) = Some issued
    | None =>
        count (is_timeout R) (swept_out r) = 0 ∧
        StdMap.get R (swept_map r) = None
    end.
Proof.
  intros Hok now m r expired.
  destruct (sweep_loop_spec now m [] (length m) ltac:(done))
    as (Hm & Hit & Hout & Hvis).
  simpl in Hm, Hit, Hout, Hvis.
  change (sweep_loop (length m) now 0 m) with r in Hm, Hit, Hout, Hvis.
  split; [reflexivity |]. split; [exact Hit |]. split; [exact Hvis |].
  split.
  { by apply ok_NoDup. }
  split; [exact Hm |]. split; [exact Hout |].
  split; [by rewrite sweep_eq, Hm |]. split; [by rewrite sweep_eq, Hout |].
  intros R. rewrite Hout, Hm, count_timeouts, get_filter by done.
  destruct (StdMap.get R m) as [issued |]; [| done]. unfold expired. cbn [snd].
  destruct (decide (now - issued > TIMEOUT)%Z).
  - by rewrite decide_False by tauto.
  - by rewrite decide_True.
Qed.

(** C5: one call of [checkResponses] matches the whole batch first and
    sweeps afterwards.  A pending id for which the batch holds a valid
    response is therefore matched, once, and gets no timeout line in that
    call, however old the request is. *)
Theorem checkResponses_match_wins samples (sample : Sample LedResponse) c issued :
  StdMap.ok (pending_requests c) →
  sample ∈ samples → valid sample = true →
  StdMap.get (request_id (data sample)) (pending_requests c) = Some issued →
  let R := request_id (data sample) in
  let drained := drain clock samples c in
  let swept := sweep clock drained.1 in
  let r := checkResponses clock samples c in
  r = (swept.1, drained.2 ++ swept.2) ∧
  (∀ R', count (is_timeout R') drained.2 = 0) ∧
  (∀ R', count (is_match R') swept.2 = 0) ∧
  StdMap.get R (pending_requests drained.1) = None ∧
  count (is_match R) r.2 = 1 ∧
  count (is_timeout R) r.2 = 0 ∧
  StdMap.get R (pending_requests r.1) = None.
Proof.
  intros Hok Hin Hv Hg R drained swept r.
  destruct (drain_props samples c Hok)
    as (Hok1 & _ & _ & _ & _ & _ & H7 & H8 & _ & H10).
  fold drained in Hok1, H7, H8, H10.
  destruct (sweep_props drained.1 Hok1) as (_ & _ & _ & _ & _ & S6 & S7 & S8 & _).
  fold swept in S6, S7, S8.
  pose proof (H10 _ Hin Hv) as Hnone. fold R in Hnone.
  assert (Hr : r = (swept.1, drained.2 ++ swept.2)) by apply checkResponses_eq.
  split; [exact Hr |]. split; [exact H8 |]. split; [exact S8 |].
  split; [exact Hnone |].
  rewrite Hr. cbn [fst snd]. rewrite !count_app.
  specialize (H7 R). unfold pending in H7. rewrite Hnone in H7.
  unfold R in H7 at 2. rewrite Hg in H7.
  rewrite S8, H8, S7, S6, Hnone. repeat split; lia.
Qed.

(** ** Request ids *)

Lemma pre_increment_small x :
  (x + 1 < Word.ULONG_MODULUS)%N → Word.pre_increment x = (x + 1)%N.
Proof. intros Hx. unfold Word.pre_increment. by apply N.mod_small. Qed.

Lemma pre_increment_in_range x : Word.in_range (Word.pre_increment x).
Proof.
  unfold Word.in_range, Word.pre_increment. by apply N.mod_upper_bound.
Qed.

Lemma sent_ids_app out1 out2 :
  sent_ids (out1 ++ out2) = sent_ids out1 ++ sent_ids out2.
Proof. apply omap_app. Qed.

Lemma sent_ids_no_sending out :
  (∀ R, count (is_sending R) out = 0) → sent_ids out = [].
Proof.
  induction out as [| e out IH]; intros Hcount; [done |].
  destruct e as [col st id | response latency | id].
  - specialize (Hcount id). simpl in Hcount.
    rewrite bool_decide_eq_true_2 in Hcount by done. lia.
  - apply IH. intros R. apply (Hcount R).
  - apply IH. intros R. apply (Hcount R).
Qed.

(** What one call of [checkResponses] does, whatever the samples. *)
Lemma checkResponses_props samples c :
  StdMap.ok (pending_requests c) →
  let c' := (checkResponses clock samples c).1 in
  let out := (checkResponses clock samples c).2 in
  StdMap.ok (pending_requests c') ∧
  request_counter c' = request_counter c ∧
  clock_reads c ≤ clock_reads c' ∧
  (∀ R, count (is_sending R) out = 0) ∧
  (∀ R, count (is_match R) out + count (is_timeout R) out + pending R c'
        = pending R c) ∧
  (∀ R, StdMap.get R (pending_requests c') = None ∨
        StdMap.get R (pending_requests c') = StdMap.get R (pending_requests c)).
Proof.
  intros Hok. rewrite checkResponses_eq. cbn zeta. cbn [fst snd].
  destruct (drain_props samples c Hok)
    as (Hok1 & D2 & _ & D4 & _ & D6 & D7 & D8 & D9 & _).
  destruct (sweep_props _ Hok1) as (Hok2 & S2 & _ & S4 & _ & S6 & S7 & S8 & S9).
  split; [done |]. split; [congruence |]. split; [lia |].
  split; [intros R; by rewrite count_app, D9, S9 |].
  split.
  - intros R. rewrite !count_app, D8, S8, S7. specialize (D7 R).
    unfold pending in *. rewrite S6.
    destruct (StdMap.get R (pending_requests (drain clock samples c).1));
      [case_decide |]; lia.
  - intros R. rewrite S6. destruct (D6 R) as [-> | ->]; [by left |].
    destruct (StdMap.get R (pending_requests c)); [case_decide |]; auto.
Qed.

(** The first loop leaves the counter, the writer log and the clock's past
    alone and prints matched responses only; this needs no well-formed
    map. *)
Lemma drain_frame samples :
  ∀ c,
    request_counter (drain clock samples c).1 = request_counter c ∧
    request_writer (drain clock samples c).1 = request_writer c ∧
    ∀ R, count (is_sending R) (drain clock samples c).2 = 0.
Proof.
  induction samples as [| sample rest IH]; intros c; [done |].
  destruct (valid sample) eqn:Hv;
    [destruct (StdMap.get (request_id (data sample)) (pending_requests c))
       as [issued |] eqn:Hg |].
  - rewrite (drain_match _ _ _ _ Hv Hg). cbn zeta. cbn [fst snd].
    destruct (IH (matched (request_id (data sample)) c)) as (H1 & H2 & H3).
    rewrite H1, H2. split; [done |]. split; [done |].
    intros R. cbn [count is_sending]. by rewrite H3.
  - rewrite drain_skip by auto. apply IH.
  - rewrite drain_skip by auto. apply IH.
Qed.

Lemma checkResponses_frame samples c :
  request_counter (checkResponses clock samples c).1 = request_counter c ∧
  request_writer (checkResponses clock samples c).1 = request_writer c ∧
  sent_ids (checkResponses clock samples c).2 = [].
Proof.
  rewrite checkResponses_eq, sweep_eq. cbn [fst snd request_counter request_writer].
  destruct (drain_frame samples c) as (H1 & H2 & H3).
  split; [done |]. split; [done |].
  apply sent_ids_no_sending. intros R.
  by rewrite count_app, H3, count_sending_timeouts.
Qed.

(** In a session that does not exhaust the counter the [k]-th request
    sent gets the id [request_counter + k]. *)
Lemma run_sent_ids steps :
  ∀ c, (request_counter c + N.of_nat (sends steps) < Word.ULONG_MODULUS)%N →
    sent_ids (run clock steps c).2 =
      (λ i, (request_counter c + N.of_nat i)%N) <$> seq 1 (sends steps) ∧
    request_counter (run clock steps c).1 =
      (request_counter c + N.of_nat (sends steps))%N.
Proof.
  induction steps as [| s steps IH]; intros c Hbound.
  - simpl. split; [done | lia].
  - rewrite run_cons. cbn [fst snd]. rewrite sent_ids_app.
    destruct s as [color state | samples]; cbn [sends step] in *.
    + rewrite sendRequest_eq. cbn zeta. cbn [fst snd].
      rewrite pre_increment_small by lia.
      set (c1 := mkLedClient _ _ _ _).
      destruct (IH c1) as [IH1 IH2]; [unfold c1; simpl; lia |].
      rewrite IH1, IH2. unfold c1. cbn [request_counter]. split; [| lia].
      change (seq 1 (S (sends steps))) with (1 :: seq 2 (sends steps)).
      rewrite <- (fmap_S_seq 1), fmap_cons, <- list_fmap_compose.
      change (sent_ids [SendingRequest (colorToString color) state
                          (request_counter c + 1)%N])
        with [(request_counter c + 1)%N].
      simpl app. apply (f_equal2 cons); [reflexivity |].
      apply list_fmap_ext. intros i x _. simpl. lia.
    + destruct (checkResponses_frame samples c) as (Hrc & _ & Hno).
      rewrite Hno. simpl app.
      destruct (IH (checkResponses clock samples c).1) as [IH1 IH2];
        [rewrite Hrc; lia |].
      by rewrite IH1, IH2, Hrc.
Qed.

Lemma ids_ascending base a n :
  StronglySorted N.lt ((λ i, (base + N.of_nat i)%N) <$> seq a n).
Proof.
  revert a. induction n as [| n IH]; intros a; simpl; [constructor |].
  apply StronglySorted_cons. split; [| apply IH].
  apply Forall_fmap, Forall_seq. intros j Hj. simpl. lia.
Qed.

(** C4, for a session that sends fewer than [2 ^ 64 - request_counter]
    requests (the counter is an [unsigned long] and wraps to 0 after
    [2 ^ 64 - 1]): the ids printed, in order, are [request_counter + 1],
    [request_counter + 2], ...; they are strictly increasing, pairwise
    distinct and positive.  Every call of [sendRequest], whatever the
    counter, returns: it prints the incremented counter as the id, records
    that id with the clock reading in the map without touching other
    nodes, and hands one request with that id to the writer. *)
Theorem sendRequest_ids steps c :
  (request_counter c + N.of_nat (sends steps) < Word.ULONG_MODULUS)%N →
  let r := run clock steps c in
  let ids := sent_ids r.2 in
  ids = (λ i, (request_counter c + N.of_nat i)%N) <$> seq 1 (sends steps) ∧
  StronglySorted N.lt ids ∧ NoDup ids ∧ Forall (λ id, (0 < id)%N) ids ∧
  request_counter r.1 = (request_counter c + N.of_nat (sends steps))%N ∧
  ∀ color state c0,
    let id := Word.pre_increment (request_counter c0) in
    let s := sendRequest clock color state c0 in
    s.2 = [SendingRequest (colorToString color) state id] ∧
    request_counter s.1 = id ∧
    StdMap.get id (pending_requests s.1) = Some (clock (clock_reads c0)) ∧
    (∀ R, R ≠ id →
       StdMap.get R (pending_requests s.1) = StdMap.get R (pending_requests c0)) ∧
    request_writer s.1 = request_writer c0 ++ [mkLedRequest color state id] ∧
    ((request_counter c0 + 1 < Word.ULONG_MODULUS)%N →
     id = (request_counter c0 + 1)%N).
Proof.
  intros Hbound r ids.
  destruct (run_sent_ids steps c Hbound) as [Hids Hrc].
  fold r in Hids, Hrc. fold ids in Hids.
  split; [exact Hids |].
  split; [rewrite Hids; apply ids_ascending |].
  split.
  { rewrite Hids. apply NoDup_fmap_2; [| apply NoDup_seq].
    intros i j Hij. lia. }
  split.
  { rewrite Hids. apply Forall_fmap, Forall_seq. intros j Hj. simpl. lia. }
  split; [exact Hrc |].
  intros color state c0 id s. unfold s. rewrite sendRequest_eq.
  cbn zeta. cbn [fst snd request_counter pending_requests request_writer].
  fold id.
  split; [done |]. split; [done |].
  split; [by rewrite get_assign, decide_True |].
  split; [intros R HR; by rewrite get_assign, decide_False |].
  split; [done |].
  intros Hsmall. by apply pre_increment_small.
Qed.

(** ** The life of a request *)

Lemma step_ok s c :
  StdMap.ok (pending_requests c) →
  StdMap.ok (pending_requests (step clock s c).1) ∧
  clock_reads c ≤ clock_reads (step clock s c).1.
Proof.
  intros Hok. destruct s as [color state | samples]; cbn [step].
  - rewrite sendRequest_eq. simpl. split; [auto with stdmap | lia].
  - destruct (checkResponses_props samples c Hok) as (H1 & _ & H3 & _). done.
Qed.

(** One step, seen from an id that the step does not send: what is
    printed about the id is paid for by its node. *)
Lemma step_props s c R :
  StdMap.ok (pending_requests c) →
  count (is_sending R) (step clock s c).2 = 0 →
  count (is_match R) (step clock s c).2 +
    count (is_timeout R) (step clock s c).2 + pending R (step clock s c).1
    = pending R c ∧
  (StdMap.get R (pending_requests (step clock s c).1) = None ∨
   StdMap.get R (pending_requests (step clock s c).1) =
     StdMap.get R (pending_requests c)).
Proof.
  intros Hok Hsend. destruct s as [color state | samples]; cbn [step] in *.
  - rewrite sendRequest_eq in *. cbn zeta in *. cbn [fst snd] in *.
    unfold pending. cbn [pending_requests count is_sending is_match is_timeout] in *.
    assert (Hne : R ≠ Word.pre_increment (request_counter c)).
    { intros ->. rewrite bool_decide_eq_true_2 in Hsend by done. lia. }
    rewrite get_assign, decide_False by done. split; [lia | by right].
  - destruct (checkResponses_props samples c Hok) as (_ & _ & _ & _ & H5 & H6).
    split; [apply H5 | apply H6].
Qed.

Lemma run_props steps :
  ∀ c R,
    StdMap.ok (pending_requests c) →
    count (is_sending R) (run clock steps c).2 = 0 →
    StdMap.ok (pending_requests (run clock steps c).1) ∧
    clock_reads c ≤ clock_reads (run clock steps c).1 ∧
    count (is_match R) (run clock steps c).2 +
      count (is_timeout R) (run clock steps c).2 + pending R (run clock steps c).1
      = pending R c ∧
    (StdMap.get R (pending_requests (run clock steps c).1) = None ∨
     StdMap.get R (pending_requests (run clock steps c).1) =
       StdMap.get R (pending_requests c)).
Proof.
  induction steps as [| s steps IH]; intros c R Hok Hsend.
  - simpl. repeat split; auto.
  - rewrite run_cons in *. cbn [fst snd] in *. rewrite count_app in Hsend.
    destruct (step_ok s c Hok) as [Hok1 Hreads].
    destruct (step_props s c R Hok ltac:(lia)) as [Hsum Hget].
    destruct (IH (step clock s c).1 R Hok1 ltac:(lia))
      as (Hok2 & Hreads2 & Hsum2 & Hget2).
    split; [done |]. split; [lia |]. rewrite !count_app.
    split; [lia |].
    destruct Hget2 as [-> | ->]; [by left | done].
Qed.



(** A session that does not exhaust the counter never issues an id
    again. *)
Lemma fresh_ids steps c :
  (request_counter c + N.of_nat (sends steps) < Word.ULONG_MODULUS)%N →
  count (is_sending (request_counter c)) (run clock steps c).2 = 0.
Proof.
  intros Hbound. destruct (run_sent_ids steps c Hbound) as [Hids _].
  assert (Hnot : request_counter c ∉ sent_ids (run clock steps c).2).
  { rewrite Hids. intros Hin. apply list_elem_of_fmap in Hin as (i & Hi & Hin).
    apply elem_of_seq in Hin. lia. }
  revert Hnot. generalize (run clock steps c).2. clear.
  induction l as [| e l IH]; intros Hnot; [done |].
  destruct e as [col st id | response latency | id]; simpl in *; auto.
  apply not_elem_of_cons in Hnot as [Hne Hnot].
  rewrite bool_decide_eq_false_2 by congruence. auto.
Qed.

(** ** When the counter wraps *)

(** The counter after [n] calls of [sendRequest] in a row. *)
Lemma sendRequest_iter_counter color state (n : N) c :
  Word.in_range (request_counter c) →
  request_counter (N.iter n (λ c, (sendRequest clock color state c).1) c) =
    ((request_counter c + n) mod Word.ULONG_MODULUS)%N.
Proof.
  intros Hrange. induction n as [| n IH] using N.peano_ind.
  - rewrite N.add_0_r, N.mod_small by exact Hrange. done.
  - rewrite N.iter_succ, sendRequest_eq. cbn zeta. cbn [fst request_counter].
    rewrite IH. unfold Word.pre_increment.
    rewrite N.Div0.add_mod_idemp_l. f_equal. lia.
Qed.

(** The call made with the counter at its largest value issues the id 0. *)
Lemma sendRequest_at_max color state c :
  request_counter c = (Word.ULONG_MODULUS - 1)%N →
  (sendRequest clock color state c).2 =
    [SendingRequest (colorToString color) state 0].
Proof. intros Hmax. rewrite sendRequest_eq. cbn zeta. cbn [snd]. by rewrite Hmax. Qed.



End WithClock.

(** ** Concrete sessions *)

Lemma drain_matches_once_witness :
  let c := (sendRequest every_second RED true init).1 in
  monotone every_second ∧ inv every_second c ∧
  StdMap.get 1 (pending_requests c) = Some 0%Z ∧
  (drain every_second [response_to 1] c).2 =
    [ReceivedResponse (data (response_to 1)) 1000] ∧
  drain every_second [response_to 1] (drain every_second [response_to 1] c).1 =
    ((drain every_second [response_to 1] c).1, []).
Proof.
  intros c.
  assert (Hinv : inv every_second c).
  { apply sendRequest_inv, init_inv. }
  destruct (drain_matches_once every_second (response_to 1) c 0
              every_second_monotone Hinv eq_refl eq_refl)
    as (H1 & _ & _ & _ & H5 & _).
  split; [apply every_second_monotone |]. split; [exact Hinv |]. split; [reflexivity |]. split; [exact H1 | exact H5].
Defined.

Lemma drain_discards_witness :
  StdMap.get 7 (pending_requests init) = None ∧
  drain every_second [response_to 7] init = (init, []).
Proof.
  split; [reflexivity |].
  apply (drain_discards every_second (response_to 7) [] init).
  right. reflexivity.
Defined.

(** C2 as stated fails: the request sent at reading 0 is five seconds old,
    to the nanosecond, at the sweep that reads 5 s, and that sweep prints
    nothing and keeps the node. *)
Lemma sweep_at_five_seconds :
  let c :=
    (run every_second [Send RED true; Tick []; Tick []; Tick []; Tick []] init).1 in
  StdMap.get 1 (pending_requests c) = Some 0%Z ∧
  (every_second (clock_reads c) - 0 >= TIMEOUT)%Z ∧
  (sweep every_second c).2 = [] ∧
  StdMap.get 1 (pending_requests (sweep every_second c).1) = Some 0%Z.
Proof. vm_compute. repeat split; discriminate. Qed.

Lemma sweep_timeouts_witness :
  let c :=
    (run every_second [Send RED true; Tick []; Tick []; Send GREEN true;
                       Tick []; Tick []] init).1 in
  StdMap.ok (pending_requests c) ∧
  pending_requests c = [(1%N, 0%Z); (2%N, 3000000000%Z)] ∧
  (sweep every_second c).2 = [TimeoutForRequest 1] ∧
  pending_requests (sweep every_second c).1 = [(2%N, 3000000000%Z)].
Proof.
  intros c.
  assert (Hok : StdMap.ok (pending_requests c)).
  { apply (run_inv every_second _ init), init_inv. }
  destruct (sweep_timeouts every_second c Hok)
    as (_ & _ & _ & _ & Hm & Hout & Hc & Hp & _).
  split; [exact Hok |]. split; [reflexivity |].
  split; [rewrite Hp, Hout | rewrite Hc, Hm]; reflexivity.
Defined.



(** C4 as stated fails: the counter starts at 0; after [2 ^ 64 - 1]
    requests it holds the largest [unsigned long], and the next request
    gets the id 0, which is neither positive nor above the id before it. *)
Lemma sendRequest_wraps_to_zero :
  let c :=
    N.iter (2 ^ 64 - 1) (λ c, (sendRequest every_second RED true c).1) init in
  request_counter init = 0%N ∧
  request_counter c = (2 ^ 64 - 1)%N ∧
  (sendRequest every_second RED true c).2 = [SendingRequest "RED" true 0].
Proof.
  split; [reflexivity |].
  assert (Hc : request_counter
                 (N.iter (2 ^ 64 - 1)
                    (λ c, (sendRequest every_second RED true c).1) init)
               = (2 ^ 64 - 1)%N).
  { rewrite sendRequest_iter_counter by reflexivity. reflexivity. }
  split; [exact Hc |].
  apply (sendRequest_at_max every_second RED true). exact Hc.
Qed.

Lemma sendRequest_ids_witness :
  (request_counter init + N.of_nat (sends [Send RED true; Send GREEN true;
                                            Tick []; Send BLUE true])
   < Word.ULONG_MODULUS)%N ∧
  sent_ids (run every_second [Send RED true; Send GREEN true; Tick [];
                              Send BLUE true] init).2 = [1%N; 2%N; 3%N].
Proof.
  split; [reflexivity |].
  destruct (sendRequest_ids every_second
              [Send RED true; Send GREEN true; Tick []; Send BLUE true] init
              eq_refl) as (H1 & _).
  exact H1.
Defined.

Lemma checkResponses_match_wins_witness :
  let c :=
    (run every_second [Send RED true; Tick []; Tick []; Tick []; Tick [];
                       Tick []] init).1 in
  StdMap.ok (pending_requests c) ∧
  StdMap.get 1 (pending_requests c) = Some 0%Z ∧
  (every_second (S (clock_reads c)) - 0 > TIMEOUT)%Z ∧
  (checkResponses every_second [response_to 1] c).2 =
    [ReceivedResponse (data (response_to 1)) 6000].
Proof.
  intros c.
  assert (Hok : StdMap.ok (pending_requests c)).
  { apply (run_inv every_second _ init), init_inv. }
  assert (Hin : response_to 1 ∈ [response_to 1]) by left.
  destruct (checkResponses_match_wins every_second [response_to 1]
              (response_to 1) c 0 Hok Hin eq_refl eq_refl) as (Hr & _).
  split; [exact Hok |]. split; [reflexivity |]. split; [reflexivity |].
  rewrite Hr. reflexivity.
Defined.

(** ** The scenarios of the specification, run on the model *)

(** Scenario 1: the first request gets id 1, the server switches the red
    LED on and answers, and the client matches the answer. *)
Example scenario_request_response :
  let c := (sendRequest every_second RED true init).1 in
  Server.serve (mkSample true <$> request_writer c) Server.init
    = Some {| Server.led_states := [true; false; false];
              Server.response_writer := [data (response_to 1)];
              Server.cout := [Server.ReceivedRequest "RED" true 1;
                              Server.SentResponse 1] |} ∧
  (checkResponses every_second (served c) c).2
    = [ReceivedResponse (data (response_to 1)) 1000] ∧
  pending_requests (checkResponses every_second (served c) c).1 = [].
Proof. vm_compute. done. Qed.

(** Scenario 2: a request that is never answered times out once, at the
    first sweep that reads more than 5 s after the request, and a late
    answer is then passed over. *)
Example scenario_timeout_then_late_response :
  run every_second
    [Send GREEN true; Tick []; Tick []; Tick []; Tick []; Tick []; Tick [];
     Tick [response_to 1]; Tick []] init
  = ({| request_counter := 1; pending_requests := [];
        request_writer := [mkLedRequest GREEN true 1]; clock_reads := 9 |},
     [SendingRequest "GREEN" true 1; TimeoutForRequest 1]).
Proof. vm_compute. done. Qed.

(** Scenario 3: answers that arrive in the other order are matched by id,
    each against the time of its own request. *)
Example scenario_out_of_order :
  (run every_second
     [Send RED true; Send RED true; Tick [response_to 2; response_to 1]]
     init).2
  = [SendingRequest "RED" true 1; SendingRequest "RED" true 2;
     ReceivedResponse (data (response_to 2)) 1000;
     ReceivedResponse (data (response_to 1)) 3000].
Proof. vm_compute. done. Qed.

End ClientProofs.

(* ================================================================== *)
(** * More about the server: batches, the display, the loop *)
(* ================================================================== *)

Module ServerMore.
Import Server ServerRun ServerProofs.

Lemma response_for_eq (request : LedRequest) (s : LedServer) :
  ok s →
  ∃ s', processRequest request s = Some s' ∧ ok s' ∧
        led_states s' =
          <[Z.to_nat (LedColor_to_int (req_color request)) := req_state request]>
            (led_states s) ∧
        response_writer s' = response_writer s ++ [response_for request].
Proof.
  intros Hok. eexists. split; [by apply processRequest_eq |].
  split; [| done]. unfold ok in *. simpl. by rewrite length_insert.
Qed.

Lemma valid_requests_cons sample samples :
  valid_requests (sample :: samples) =
    if valid sample then data sample :: valid_requests samples
    else valid_requests samples.
Proof.
  unfold valid_requests. rewrite filter_cons.
  destruct (valid sample); [by rewrite decide_True | by rewrite decide_False].
Qed.

(** Serving two batches one after the other is serving them as one. *)
Lemma serve_app samples1 samples2 s :
  serve (samples1 ++ samples2) s =
    match serve samples1 s with
    | Some s1 => serve samples2 s1
    | None => None
    end.
Proof.
  revert s. induction samples1 as [| sample rest IH]; intros s; [done |].
  simpl. destruct (valid sample); [| apply IH].
  destruct (processRequest (data sample) s); [apply IH | done].
Qed.

Lemma serve_writer samples s :
  ok s →
  ∃ s', serve samples s = Some s' ∧ ok s' ∧
        response_writer s' =
          response_writer s ++ (response_for <$> valid_requests samples).
Proof.
  revert s. induction samples as [| sample rest IH]; intros s Hok.
  - exists s. simpl. by rewrite !app_nil_r.
  - rewrite valid_requests_cons. simpl. destruct (valid sample); [| by apply IH].
    destruct (response_for_eq (data sample) s Hok) as (s1 & -> & Hok1 & _ & Hw).
    destruct (IH s1 Hok1) as (s' & Hs & Hok' & Hw').
    exists s'. split; [done |]. split; [done |].
    by rewrite Hw', Hw, fmap_cons, <- !(assoc_L (++)).
Qed.

(** X1: serving a batch never fails on a three-element LED array; it
    publishes one response per valid sample, in the order of the samples,
    each with [success = true] and the id, colour and state of its
    request, and nothing for an invalid sample. *)
Theorem serve_responses samples s :
  ok s →
  ∃ s', serve samples s = Some s' ∧ ok s' ∧
        response_writer s' =
          response_writer s ++ (response_for <$> valid_requests samples) ∧
        length (response_writer s') =
          length (response_writer s) +
            length (filter (λ sample, valid sample = true) samples) ∧
        Forall (λ response, success response = true)
          (response_for <$> valid_requests samples) ∧
        request_id <$> response_writer s' =
          (request_id <$> response_writer s) ++
            (req_request_id <$> valid_requests samples).
Proof.
  intros Hok. destruct (serve_writer samples s Hok) as (s' & Hs & Hok' & Hw).
  exists s'. split; [done |]. split; [done |]. split; [done |].
  split.
  { rewrite Hw, length_app, length_fmap. unfold valid_requests.
    by rewrite length_fmap. }
  split.
  { apply Forall_fmap, Forall_forall. by intros request _. }
  rewrite Hw, fmap_app. f_equal. rewrite <- list_fmap_compose.
  by apply list_fmap_ext.
Qed.

Lemma serve_responses_witness :
  ok init ∧
  ∃ s', serve [mkSample true (mkLedRequest GREEN true 4);
               mkSample false (mkLedRequest RED true 5);
               mkSample true (mkLedRequest RED false 6)] init = Some s' ∧
        request_id <$> response_writer s' = [4%N; 6%N].
Proof.
  split; [reflexivity |].
  destruct (serve_responses [mkSample true (mkLedRequest GREEN true 4);
                             mkSample false (mkLedRequest RED true 5);
                             mkSample true (mkLedRequest RED false 6)] init)
    as (s' & Hs & _ & _ & _ & _ & Hids); [reflexivity |].
  exists s'. split; [exact Hs |]. rewrite Hids. reflexivity.
Defined.

Lemma last_state_cons c request requests :
  last_state c (request :: requests) =
    match last_state c requests with
    | Some b => Some b
    | None => if decide (req_color request = c) then Some (req_state request)
              else None
    end.
Proof.
  unfold last_state. rewrite filter_cons.
  destruct (decide (req_color request = c)); [| by destruct (last _)].
  rewrite last_cons. by destruct (last _).
Qed.

(** X2: after a batch, each colour has the state of the last valid
    request that names it, and a colour no valid request names keeps its
    state. *)
Theorem serve_last_write_wins samples s :
  ok s →
  ∃ s', serve samples s = Some s' ∧
        ∀ c, LedState s' c =
               match last_state c (valid_requests samples) with
               | Some b => Some b
               | None => LedState s c
               end.
Proof.
  revert s. induction samples as [| sample rest IH]; intros s Hok.
  - exists s. done.
  - rewrite valid_requests_cons. simpl. destruct (valid sample); [| by apply IH].
    destruct (response_for_eq (data sample) s Hok) as (s1 & Hp & Hok1 & Hleds & _).
    rewrite Hp. destruct (IH s1 Hok1) as (s' & Hs & Hl).
    exists s'. split; [done |]. intros c. rewrite Hl, last_state_cons.
    destruct (last_state c (valid_requests rest)); [done |].
    unfold LedState. rewrite Hleds.
    destruct (decide (req_color (data sample) = c)) as [<- | Hne].
    + apply list_lookup_insert_eq.
      pose proof (LedColor_to_int_range (req_color (data sample))).
      unfold ok in Hok. lia.
    + apply list_lookup_insert_ne. intros Heq. apply Hne.
      apply LedColor_to_int_inj.
      pose proof (LedColor_to_int_range c).
      pose proof (LedColor_to_int_range (req_color (data sample))). lia.
Qed.

Lemma serve_last_write_wins_witness :
  ok init ∧
  ∃ s', serve [mkSample true (mkLedRequest RED true 1);
               mkSample true (mkLedRequest RED false 2);
               mkSample false (mkLedRequest RED true 3)] init = Some s' ∧
        LedState s' RED = Some false ∧ LedState s' BLUE = Some false.
Proof.
  split; [reflexivity |].
  destruct (serve_last_write_wins [mkSample true (mkLedRequest RED true 1);
                                   mkSample true (mkLedRequest RED false 2);
                                   mkSample false (mkLedRequest RED true 3)] init)
    as (s' & Hs & Hl); [reflexivity |].
  exists s'. split; [exact Hs |]. split; rewrite Hl; reflexivity.
Defined.

(** ** The display and the loop *)

Lemma simulateHardwareControl_ok s :
  ok s →
  ∃ red green blue,
    LedState s RED = Some red ∧ LedState s GREEN = Some green ∧
    LedState s BLUE = Some blue ∧
    simulateHardwareControl s =
      Some ["Current LED States:"%string;
            String.append "RED: " (on_off red);
            String.append "GREEN: " (on_off green);
            String.append "BLUE: " (on_off blue)].
Proof.
  unfold ok, simulateHardwareControl, LedState. intros Hok.
  destruct (led_states s) as [| r [| g [| b [| ? ?]]]]; try discriminate Hok.
  exists r, g, b. done.
Qed.

Lemma turn_props clock samples r :
  ok (server r) →
  ∃ r', turn clock samples r = Some r' ∧
        serve samples (server r) = Some (server r') ∧ ok (server r') ∧
        ∀ first, throttled first r →
                 (last_display r = None → first = clock (clock_reads r)) →
                 throttled first r' ∧ last_display r' ≠ None.
Proof.
  intros Hok. unfold turn.
  destruct (serve_writer samples (server r) Hok) as (s1 & -> & Hok1 & _).
  destruct (simulateHardwareControl_ok s1 Hok1) as (rd & gn & bl & _ & _ & _ & ->).
  set (lines := [_; _; _; _]).
  destruct (last_display r) as [last |] eqn:Hlast.
  - destruct (decide (clock (clock_reads r) - last > Chrono.seconds 5)%Z) as [Hgo | Hno].
    + eexists. split; [reflexivity |]. split; [done |]. split; [done |].
      intros first [Hgaps Hfirst Hl] _. rewrite Hlast in Hl.
      destruct Hl as [Hle Hall]. split; [| done].
      split; simpl.
      * apply StronglySorted_app. split; [| split; [done | repeat constructor]].
        intros d1 d2 H1 H2. apply list_elem_of_singleton in H2 as ->. simpl.
        rewrite Forall_forall in Hall. specialize (Hall _ H1).
        clear -Hgo Hall. unfold Chrono.seconds in *. lia.
      * apply Forall_app. split; [done |]. repeat constructor. simpl.
        clear -Hgo Hle. unfold Chrono.seconds in *. lia.
      * split; [clear -Hgo Hle; unfold Chrono.seconds in *; lia |]. apply Forall_app.
        split; [| repeat constructor; simpl; unfold Chrono.seconds in *; lia].
        eapply Forall_impl; [exact Hall |]. simpl. clear -Hgo. unfold Chrono.seconds in *. intros; lia.
    + eexists. split; [reflexivity |]. split; [done |]. split; [done |].
      intros first [Hgaps Hfirst Hl] _. rewrite Hlast in Hl.
      split; [| done]. split; simpl; done.
  - destruct (decide (clock (S (clock_reads r)) - clock (clock_reads r)
                      > Chrono.seconds 5)%Z) as [Hgo | Hno].
    + eexists. split; [reflexivity |]. split; [done |]. split; [done |].
      intros first [Hgaps Hfirst Hnil] Hf. rewrite Hlast in Hnil.
      specialize (Hf eq_refl). subst first. split; [| done].
      split; simpl; rewrite Hnil; simpl.
      * repeat constructor.
      * repeat constructor. simpl. clear -Hgo. unfold Chrono.seconds in *. lia.
      * split; [clear -Hgo; unfold Chrono.seconds in *; lia |].
        repeat constructor. simpl. lia.
    + eexists. split; [reflexivity |]. split; [done |]. split; [done |].
      intros first [Hgaps Hfirst Hnil] Hf. rewrite Hlast in Hnil.
      specialize (Hf eq_refl). subst first. split; [| done].
      split; simpl; rewrite Hnil; [constructor | constructor |].
      split; [lia | constructor].
Qed.

(** X3: the loop of [run] never fails on a three-element LED array, and
    showing the state changes nothing: after any number of turns the
    server is what serving all the batches in one go makes it. *)
Theorem turns_serve clock batches r :
  ok (server r) →
  ∃ r', turns clock batches r = Some r' ∧ ok (server r') ∧
        serve (concat batches) (server r) = Some (server r').
Proof.
  revert r. induction batches as [| samples rest IH]; intros r Hok.
  - exists r. done.
  - destruct (turn_props clock samples r Hok) as (r1 & Ht & Hs & Hok1 & _).
    destruct (IH r1 Hok1) as (r' & Hts & Hok' & Hss).
    exists r'. simpl. rewrite Ht. split; [done |]. split; [done |].
    by rewrite serve_app, Hs.
Qed.

Lemma turns_serve_witness :
  ok (server start) ∧
  ∃ r', turns (ClientRun.every 3)
          [[mkSample true (mkLedRequest RED true 1)]; [];
           [mkSample true (mkLedRequest BLUE true 2)]] start = Some r' ∧
        led_states (server r') = [true; false; true] ∧
        (displays r').*1 = [6000000000%Z].
Proof.
  split; [reflexivity |].
  destruct (turns_serve (ClientRun.every 3)
              [[mkSample true (mkLedRequest RED true 1)]; [];
               [mkSample true (mkLedRequest BLUE true 2)]] start)
    as (r' & Ht & _ & _); [reflexivity |].
  exists r'. split; [exact Ht |].
  vm_compute in Ht. injection Ht as <-. split; reflexivity.
Defined.

(** X4: the state is shown at most once in any five seconds: every display
    is printed at a reading more than [5s] after the loop's first reading
    and more than [5s] after every earlier display. *)
Theorem displays_throttled clock batches r' :
  turns clock batches start = Some r' →
  throttled (clock 0) r'.
Proof.
  assert (Hgen : ∀ batches r r',
            ok (server r) → throttled (clock 0) r →
            (last_display r = None → clock 0 = clock (clock_reads r)) →
            turns clock batches r = Some r' → throttled (clock 0) r').
  { clear. induction batches as [| samples rest IH]; intros r r' Hok Hthr Hf Ht.
    - simpl in Ht. by injection Ht as <-.
    - simpl in Ht.
      destruct (turn_props clock samples r Hok) as (r1 & Hr1 & _ & Hok1 & Hkeep).
      rewrite Hr1 in Ht. destruct (Hkeep _ Hthr Hf) as [Hthr1 Hsome].
      eapply IH; eauto. intros Hnone. done. }
  intros Ht. eapply Hgen; [| | | exact Ht].
  - reflexivity.
  - split; simpl; [constructor | constructor | done].
  - done.
Qed.

Lemma displays_throttled_witness :
  ∃ r', turns (ClientRun.every 3) [[]; []; []; []; []] start = Some r' ∧
        (displays r').*1 = [6000000000%Z; 12000000000%Z] ∧
        throttled 0%Z r'.
Proof.
  eexists. split; [reflexivity |]. split; [reflexivity |].
  apply (displays_throttled (ClientRun.every 3) [[]; []; []; []; []]).
  reflexivity.
Defined.

End ServerMore.

(* ================================================================== *)
(** * More about the client: batches, sessions, [run] *)
(* ================================================================== *)

Module ClientMore.
Import Client ClientRun StdMapProofs ClientProofs.

Lemma length_filter_split {A} (P : A → Prop) `{!∀ x, Decision (P x)} (l : list A) :
  length (filter P l) + length (filter (λ x, ¬ P x) l) = length l.
Proof.
  induction l as [| x l IH]; [done |]. rewrite !filter_cons.
  destruct (decide (P x)).
  - rewrite decide_False by tauto. simpl. lia.
  - rewrite decide_True by done. simpl. lia.
Qed.

Lemma timeout_ids_app out1 out2 :
  timeout_ids (out1 ++ out2) = timeout_ids out1 ++ timeout_ids out2.
Proof. apply omap_app. Qed.

Lemma timeout_ids_timeouts (ks : list N) :
  timeout_ids (TimeoutForRequest <$> ks) = ks.
Proof.
  unfold timeout_ids. induction ks as [| k ks IH]; [done |]. simpl. by f_equal.
Qed.

Lemma matched_responses_app out1 out2 :
  matched_responses (out1 ++ out2) =
    matched_responses out1 ++ matched_responses out2.
Proof. apply omap_app. Qed.

Lemma matched_responses_timeouts (ks : list N) :
  matched_responses (TimeoutForRequest <$> ks) = [].
Proof. induction ks; done. Qed.

Section WithClock.

Context (clock : nat → Z).

Implicit Types (c : LedClient) (R : N).

Lemma drain_cases sample rest c :
  drain clock (sample :: rest) c = drain clock rest c ∧
    (valid sample = false ∨
     StdMap.get (request_id (data sample)) (pending_requests c) = None)
  ∨
  ∃ issued,
    valid sample = true ∧
    StdMap.get (request_id (data sample)) (pending_requests c) = Some issued ∧
    drain clock (sample :: rest) c =
      ((drain clock rest (matched (request_id (data sample)) c)).1,
       ReceivedResponse (data sample)
         (Chrono.duration_cast_milliseconds (clock (clock_reads c) - issued)%Z)
       :: (drain clock rest (matched (request_id (data sample)) c)).2).
Proof.
  destruct (valid sample) eqn:Hv;
    [destruct (StdMap.get (request_id (data sample)) (pending_requests c))
       as [issued |] eqn:Hg |].
  - right. exists issued. by rewrite (drain_match _ _ _ _ _ Hv Hg).
  - left. split; [by rewrite drain_skip by auto | auto].
  - left. split; [by rewrite drain_skip by auto | auto].
Qed.

Lemma drain_length samples :
  ∀ c, length (drain clock samples c).2 +
         length (pending_requests (drain clock samples c).1)
       = length (pending_requests c).
Proof.
  induction samples as [| sample rest IH]; intros c; [done |].
  destruct (drain_cases sample rest c) as [[-> _] | (issued & Hv & Hg & ->)];
    [apply IH |].
  cbn [fst snd length]. specialize (IH (matched (request_id (data sample)) c)).
  unfold matched in IH at 3. cbn [pending_requests] in IH.
  unfold StdMap.erase in IH. cbn [fst] in IH.
  rewrite length_delete in IH.
  - assert (0 < length (pending_requests c)); [| lia].
    destruct (pending_requests c); [discriminate Hg | simpl; lia].
  - unfold StdMap.get, StdMap.deref in Hg.
    destruct (pending_requests c !! StdMap.find _ _); [by eexists | done].
Qed.

(** X6: one call of [checkResponses] prints exactly as many blocks and
    lines as it removes nodes from the map: nothing is reported without a
    node being removed, no node is removed silently, and the map never
    grows. *)
Theorem checkResponses_conservation samples c :
  length (checkResponses clock samples c).2 +
    length (pending_requests (checkResponses clock samples c).1)
  = length (pending_requests c).
Proof.
  rewrite checkResponses_eq, sweep_eq. cbn zeta. cbn [fst snd pending_requests].
  rewrite length_app, length_fmap. unfold StdMap.keys. rewrite length_fmap.
  pose proof (drain_length samples c) as Hd.
  pose proof (length_filter_split
                (λ e : N * Z,
                   (clock (clock_reads (drain clock samples c).1) - e.2 > TIMEOUT)%Z)
                (pending_requests (drain clock samples c).1)) as Hf.
  lia.
Qed.

(** X7: when [checkResponses] returns, no request that is still pending
    is more than five seconds old at the clock reading its sweep took
    (the call's last reading). *)
Theorem checkResponses_leaves_young samples c :
  let c' := (checkResponses clock samples c).1 in
  ∃ k, clock_reads c' = S k ∧ clock_reads c ≤ k ∧
       Forall (λ e, (clock k - e.2 ≤ TIMEOUT)%Z) (pending_requests c').
Proof.
  cbn zeta. rewrite checkResponses_eq, sweep_eq. cbn zeta.
  cbn [fst pending_requests clock_reads].
  exists (clock_reads (drain clock samples c).1). split; [done |]. split.
  - clear. revert c. induction samples as [| sample rest IH]; intros c; [done |].
    destruct (drain_cases sample rest c) as [[-> _] | (issued & Hv & Hg & ->)];
      [apply IH |].
    cbn [fst]. specialize (IH (matched (request_id (data sample)) c)).
    simpl in IH. lia.
  - apply Forall_forall. intros e He. apply list_elem_of_filter in He as [He _].
    lia.
Qed.

Lemma timeout_ids_drain samples :
  ∀ c, timeout_ids (drain clock samples c).2 = [].
Proof.
  induction samples as [| sample rest IH]; intros c; [done |].
  destruct (drain_cases sample rest c) as [[-> _] | (issued & Hv & Hg & ->)];
    [apply IH |].
  cbn [snd]. simpl. apply IH.
Qed.

(** X8: the timeout lines of one call come out in ascending order of id,
    no id twice, and only for ids that were pending when the call began. *)
Theorem timeouts_in_key_order samples c :
  StdMap.ok (pending_requests c) →
  let out := (checkResponses clock samples c).2 in
  StronglySorted N.lt (timeout_ids out) ∧ NoDup (timeout_ids out) ∧
  ∀ k, k ∈ timeout_ids out → k ∈ StdMap.keys (pending_requests c).
Proof.
  intros Hok. cbn zeta. rewrite checkResponses_eq, sweep_eq. cbn [snd].
  rewrite timeout_ids_app, timeout_ids_drain, timeout_ids_timeouts. simpl.
  destruct (drain_props clock samples c Hok) as (Hok1 & _ & _ & _ & H5 & _).
  set (m1 := pending_requests (drain clock samples c).1) in *.
  set (P := λ e : N * Z, (_ > TIMEOUT)%Z).
  assert (Hokf : StdMap.ok (filter P m1)) by (by apply filter_ok).
  split; [exact Hokf |]. split; [by apply ok_NoDup |].
  intros k Hk. unfold StdMap.keys in *.
  apply list_elem_of_fmap in Hk as (e & -> & He).
  apply list_elem_of_filter in He as [_ He].
  apply list_elem_of_fmap. exists e. split; [done | by apply H5].
Qed.

End WithClock.

Lemma timeouts_in_key_order_witness :
  let c := (run (every 3) [Send RED true; Send GREEN true; Send BLUE true] init).1 in
  let out := (checkResponses (every 3) [response_to 2] c).2 in
  StdMap.ok (pending_requests c) ∧
  timeout_ids out = [1%N; 3%N] ∧
  StronglySorted N.lt (timeout_ids out).
Proof.
  intros c out.
  assert (Hok : StdMap.ok (pending_requests c)).
  { apply (run_inv (every 3) _ init), init_inv. }
  destruct (timeouts_in_key_order (every 3) [response_to 2] c Hok) as (Hs & _).
  split; [exact Hok |]. split; [reflexivity | exact Hs].
Defined.

Section WithClock2.

Context (clock : nat → Z).

Implicit Types (c : LedClient) (R : N).

Lemma matched_responses_drain samples :
  ∀ c, matched_responses (drain clock samples c).2
       `sublist_of` data <$> filter (λ sample, valid sample = true) samples.
Proof.
  induction samples as [| sample rest IH]; intros c; [done |].
  rewrite filter_cons.
  destruct (drain_cases clock sample rest c)
    as [[-> _] | (issued & Hv & Hg & ->)].
  - case_decide; [rewrite fmap_cons; apply sublist_cons |]; apply IH.
  - rewrite decide_True, fmap_cons by done. cbn [snd].
    change (matched_responses (ReceivedResponse (data sample) ?l :: ?out))
      with (data sample :: matched_responses out).
    apply sublist_skip, IH.
Qed.

(** X9: the blocks one call prints carry responses of the batch, unchanged
    and in the order of the batch: the responses printed are the data of
    some of the valid samples, in their order. *)
Theorem matches_follow_samples samples c :
  matched_responses (checkResponses clock samples c).2
  `sublist_of` data <$> filter (λ sample, valid sample = true) samples.
Proof.
  rewrite checkResponses_eq, sweep_eq. cbn [snd].
  rewrite matched_responses_app, matched_responses_timeouts, app_nil_r.
  apply matched_responses_drain.
Qed.

Lemma drain_all_answered samples c :
  StdMap.ok (pending_requests c) →
  answers_all samples c →
  pending_requests (drain clock samples c).1 = [] ∧
  ∀ k, k ∈ StdMap.keys (pending_requests c) →
       count (is_match k) (drain clock samples c).2 = 1.
Proof.
  intros Hok Hall.
  destruct (drain_props clock samples c Hok)
    as (Hok1 & _ & _ & _ & H5 & _ & H7 & _ & _ & H10).
  assert (Hempty : pending_requests (drain clock samples c).1 = []).
  { destruct (pending_requests (drain clock samples c).1) as [| [k v] m1] eqn:Hm;
      [done |].
    assert (Hin : (k, v) ∈ pending_requests c) by (apply H5; left).
    destruct (Hall k) as (sample & Hs & Hv & Hid).
    { unfold StdMap.keys. apply list_elem_of_fmap. by exists (k, v). }
    specialize (H10 sample Hs Hv). rewrite Hid in H10.
    rewrite (elem_of_get k v) in H10; [done | done | left]. }
  split; [exact Hempty |].
  intros k Hk. specialize (H7 k). unfold pending in H7.
  rewrite Hempty in H7. simpl in H7.
  destruct (StdMap.get k (pending_requests c)) eqn:Hg; [lia |].
  by apply get_None_keys in Hg.
Qed.

(** A sweep over an empty map prints nothing. *)
Lemma checkResponses_drained samples c :
  pending_requests (drain clock samples c).1 = [] →
  pending_requests (checkResponses clock samples c).1 = [] ∧
  (checkResponses clock samples c).2 = (drain clock samples c).2.
Proof.
  intros Hempty. rewrite checkResponses_eq, sweep_eq. cbn zeta.
  cbn [fst snd pending_requests]. rewrite Hempty. simpl.
  by rewrite app_nil_r.
Qed.

(** X10: a batch that holds a valid response to every pending request
    settles them all: each is matched once, no timeout line is printed,
    and the map is empty afterwards, however old the requests are. *)
Theorem checkResponses_all_answered samples c :
  StdMap.ok (pending_requests c) →
  answers_all samples c →
  let r := checkResponses clock samples c in
  pending_requests r.1 = [] ∧
  timeout_ids r.2 = [] ∧
  ∀ k, k ∈ StdMap.keys (pending_requests c) → count (is_match k) r.2 = 1.
Proof.
  intros Hok Hall. cbn zeta.
  destruct (drain_all_answered samples c Hok Hall) as [Hempty Hcount].
  destruct (checkResponses_drained samples c Hempty) as [-> ->].
  split; [done |]. split; [apply timeout_ids_drain | exact Hcount].
Qed.

(** X11: nothing is ever printed about a request the client does not
    hold: from a state in which the id [R] is not pending, and as long as
    [R] is not sent, no session prints a match or a timeout for [R] or
    puts [R] in the map, whatever responses arrive. *)
Theorem no_event_without_request steps c R :
  StdMap.ok (pending_requests c) →
  pending R c = 0 →
  count (is_sending R) (run clock steps c).2 = 0 →
  count (is_match R) (run clock steps c).2 = 0 ∧
  count (is_timeout R) (run clock steps c).2 = 0 ∧
  pending R (run clock steps c).1 = 0.
Proof.
  intros Hok Hp Hsend.
  destruct (run_props clock steps c R Hok Hsend) as (_ & _ & Hsum & _). lia.
Qed.

(** X12: the requests handed to the writer are the requests announced on
    the console: over any session the ids written, in order, are the ids
    printed by [sendRequest], and [checkResponses] writes nothing. *)
Theorem written_ids steps :
  ∀ c, req_request_id <$> request_writer (run clock steps c).1 =
         (req_request_id <$> request_writer c) ++ sent_ids (run clock steps c).2.
Proof.
  induction steps as [| s steps IH]; intros c.
  - simpl. by rewrite app_nil_r.
  - rewrite run_cons. cbn [fst snd]. rewrite IH, sent_ids_app.
    destruct s as [color state | samples]; cbn [step].
    + rewrite sendRequest_eq. cbn zeta. cbn [fst snd request_writer].
      rewrite fmap_app. simpl. by rewrite <- (assoc_L (++)).
    + destruct (checkResponses_frame clock samples c) as (_ & -> & ->). done.
Qed.

(** ** Client and server together *)

Lemma valid_requests_all (requests : list LedRequest) :
  ServerRun.valid_requests (mkSample true <$> requests) = requests.
Proof.
  unfold ServerRun.valid_requests.
  induction requests as [| request rest IH]; [done |].
  rewrite fmap_cons, filter_cons, decide_True by done.
  rewrite fmap_cons. simpl. by f_equal.
Qed.

Lemma served_eq c :
  served c =
    mkSample true <$> (ServerRun.response_for <$> request_writer c).
Proof.
  unfold served.
  destruct (ServerMore.serve_writer (mkSample true <$> request_writer c)
              Server.init ServerProofs.init_ok) as (s' & -> & _ & ->).
  by rewrite valid_requests_all.
Qed.

(** Every pending id was written to the request topic. *)
Lemma pending_written steps :
  ∀ c, inv clock c →
    (∀ k, k ∈ StdMap.keys (pending_requests c) →
          k ∈ req_request_id <$> request_writer c) →
    ∀ k, k ∈ StdMap.keys (pending_requests (run clock steps c).1) →
         k ∈ req_request_id <$> request_writer (run clock steps c).1.
Proof.
  unfold StdMap.keys.
  induction steps as [| s steps IH]; intros c Hinv Hc; [done |].
  rewrite run_cons. cbn [fst].
  assert (Hinv1 : inv clock (step clock s c).1).
  { destruct s; [by apply sendRequest_inv | by apply checkResponses_inv]. }
  apply IH; [exact Hinv1 |].
  destruct s as [color state | samples]; cbn [step]; intros k Hk.
  - rewrite sendRequest_eq in *. cbn zeta in *.
    cbn [fst pending_requests request_writer] in *.
    apply list_elem_of_fmap in Hk as (e & -> & He). rewrite fmap_app.
    apply elem_of_app. apply elem_of_assign in He as [-> | He].
    + right. simpl. left.
    + left. apply Hc. apply list_elem_of_fmap. by exists e.
  - destruct (checkResponses_frame clock samples c) as (_ & -> & _).
    apply Hc. apply list_elem_of_fmap in Hk as (e & -> & He).
    apply list_elem_of_fmap. exists e. split; [done |].
    rewrite checkResponses_eq in He. cbn [fst] in He.
    destruct (drain_props clock samples c (inv_map _ _ Hinv))
      as (Hok1 & _ & _ & _ & H5 & _).
    destruct (sweep_props clock _ Hok1) as (_ & _ & _ & _ & S5 & _).
    auto.
Qed.

(** X13: the round trip.  At any point of any session, if the server has
    processed the requests the client has written so far and its
    responses arrive in one batch, the next [checkResponses] settles every
    pending request by a match: the map is empty afterwards and no timeout
    line is printed. *)
Theorem served_settles_all steps :
  let c := (run clock steps init).1 in
  let r := checkResponses clock (served c) c in
  pending_requests r.1 = [] ∧
  timeout_ids r.2 = [] ∧
  ∀ k, k ∈ StdMap.keys (pending_requests c) → count (is_match k) r.2 = 1.
Proof.
  intros c r.
  assert (Hinv : inv clock c) by apply run_inv, init_inv.
  assert (Hall : answers_all (served c) c).
  { intros k Hk.
    apply (pending_written steps init (init_inv clock)) in Hk;
      [| intros k' Hk'; by apply elem_of_nil in Hk'].
    fold c in Hk. apply list_elem_of_fmap in Hk as (request & -> & Hreq).
    exists (mkSample true (ServerRun.response_for request)).
    split; [| done]. rewrite served_eq.
    apply list_elem_of_fmap. eexists. split; [done |].
    apply list_elem_of_fmap. by exists request. }
  destruct (drain_all_answered (served c) c (inv_map _ _ Hinv) Hall)
    as [Hempty Hcount].
  destruct (checkResponses_drained (served c) c Hempty) as [Hp Hout].
  unfold r. rewrite Hp, Hout.
  split; [done |]. split; [apply timeout_ids_drain | exact Hcount].
Qed.

(** ** Older requests first *)

Lemma assign_max k v (m : StdMap.t) :
  Forall (λ e : N * Z, (e.1 < k)%N) m → StdMap.assign k v m = m ++ [(k, v)].
Proof.
  induction m as [| [k0 v0] m IH]; intros Hall; [done |].
  apply Forall_cons in Hall as [Hk Hall]. simpl in *.
  rewrite decide_False by lia. rewrite decide_False by lia.
  by rewrite IH.
Qed.

Lemma StronglySorted_sublist {A} (R : relation A) (l1 l2 : list A) :
  l1 `sublist_of` l2 → StronglySorted R l2 → StronglySorted R l1.
Proof.
  induction 1 as [| x l1 l2 Hsub IH | x l1 l2 Hsub IH]; intros Hs.
  - constructor.
  - apply StronglySorted_cons in Hs as [Hall Hs].
    apply StronglySorted_cons. split; [| auto].
    rewrite Forall_forall in *. intros y Hy. apply Hall.
    by eapply elem_of_sublist.
  - apply StronglySorted_cons in Hs as [_ Hs]. auto.
Qed.

Lemma drain_sublist samples :
  ∀ c, pending_requests (drain clock samples c).1 `sublist_of` pending_requests c.
Proof.
  induction samples as [| sample rest IH]; intros c; [done |].
  destruct (drain_cases clock sample rest c)
    as [[-> _] | (issued & Hv & Hg & ->)]; [apply IH |].
  cbn [fst]. etrans; [apply IH |].
  unfold matched, StdMap.erase. simpl. apply sublist_delete.
Qed.

Lemma checkResponses_sublist samples c :
  pending_requests (checkResponses clock samples c).1
  `sublist_of` pending_requests c.
Proof.
  rewrite checkResponses_eq, sweep_eq. cbn [fst pending_requests].
  etrans; [apply sublist_filter | apply drain_sublist].
Qed.

Lemma issue_order_step s c :
  monotone clock → inv clock c → issue_order c →
  (request_counter c + N.of_nat (sends [s]) < Word.ULONG_MODULUS)%N →
  issue_order (step clock s c).1.
Proof.
  intros Hmono Hinv [Htimes Hkeys] Hbound.
  destruct s as [color state | samples]; cbn [step sends] in *.
  - rewrite sendRequest_eq. cbn zeta. cbn [fst].
    rewrite pre_increment_small by lia.
    rewrite assign_max.
    2:{ eapply Forall_impl; [exact Hkeys |]. simpl. intros; lia. }
    split; cbn [pending_requests request_counter].
    + apply StronglySorted_app. split; [| split; [done | repeat constructor]].
      intros e1 e2 H1 H2. apply list_elem_of_singleton in H2 as ->.
      rewrite Forall_forall in Hkeys. specialize (Hkeys _ H1).
      pose proof (inv_past _ _ Hinv) as Hpast. rewrite Forall_forall in Hpast.
      destruct (Hpast _ H1) as (j & Hj & Hej). specialize (Hmono _ _ Hj).
      split; simpl in *; lia.
    + apply Forall_app. split; [| repeat constructor; simpl; lia].
      eapply Forall_impl; [exact Hkeys |]. simpl. intros; lia.
  - pose proof (checkResponses_sublist samples c) as Hsub.
    destruct (checkResponses_frame clock samples c) as (Hrc & _).
    split.
    + by eapply StronglySorted_sublist.
    + rewrite Hrc. rewrite Forall_forall in *. intros e He. apply Hkeys.
      by eapply elem_of_sublist.
Qed.

Lemma run_issue_order steps :
  monotone clock →
  ∀ c, inv clock c → issue_order c →
    (request_counter c + N.of_nat (sends steps) < Word.ULONG_MODULUS)%N →
    issue_order (run clock steps c).1.
Proof.
  intros Hmono. induction steps as [| s steps IH]; intros c Hinv Hord Hbound;
    [done |].
  rewrite run_cons. cbn [fst].
  assert (Hinv1 : inv clock (step clock s c).1).
  { destruct s; [by apply sendRequest_inv | by apply checkResponses_inv]. }
  apply IH; [exact Hinv1 | |].
  - apply issue_order_step; try done. destruct s; simpl in *; lia.
  - destruct s as [color state | samples]; cbn [step sends] in *.
    + rewrite sendRequest_eq. cbn zeta. cbn [fst request_counter].
      rewrite pre_increment_small by lia. lia.
    + destruct (checkResponses_frame clock samples c) as (-> & _). done.
Qed.

Lemma issued_before_elem (m : StdMap.t) (e1 e2 : N * Z) :
  StronglySorted issued_before m → e1 ∈ m → e2 ∈ m → (e1.1 < e2.1)%N →
  (e1.2 ≤ e2.2)%Z.
Proof.
  induction m as [| e m IH]; intros Hs H1 H2 Hlt; [by apply elem_of_nil in H1 |].
  apply StronglySorted_cons in Hs as [Hall Hs]. rewrite Forall_forall in Hall.
  apply elem_of_cons in H1 as [-> | H1]; apply elem_of_cons in H2 as [-> | H2].
  - lia.
  - by destruct (Hall _ H2).
  - destruct (Hall _ H1). lia.
  - auto.
Qed.

(** X14: in a session that starts from the initial client, sends fewer
    than [2 ^ 64] requests and reads a steady clock, pending requests with
    smaller ids are older, and no request times out while an older one
    stays pending: a call of [checkResponses] that prints a timeout for an
    id leaves no smaller id in the map. *)
Theorem oldest_first steps :
  monotone clock →
  (N.of_nat (sends steps) < Word.ULONG_MODULUS)%N →
  let c := (run clock steps init).1 in
  ∀ k1 k2 t1 t2,
    (k1 < k2)%N →
    StdMap.get k1 (pending_requests c) = Some t1 →
    StdMap.get k2 (pending_requests c) = Some t2 →
    (t1 ≤ t2)%Z ∧
    ∀ samples,
      0 < count (is_timeout k2) (checkResponses clock samples c).2 →
      pending k1 (checkResponses clock samples c).1 = 0.
Proof.
  intros Hmono Hbound c k1 k2 t1 t2 Hlt Hg1 Hg2.
  assert (Hinv : inv clock c) by apply run_inv, init_inv.
  assert (Hord : issue_order c).
  { apply run_issue_order; [done | apply init_inv | | done].
    split; constructor. }
  assert (Ht : (t1 ≤ t2)%Z).
  { apply (issued_before_elem (pending_requests c) (k1, t1) (k2, t2));
      [apply Hord | by apply get_Some_elem_of.. | done]. }
  split; [exact Ht |]. intros samples Hout.
  rewrite checkResponses_eq in *. cbn [fst snd] in *. rewrite count_app in Hout.
  destruct (drain_props clock samples c (inv_map _ _ Hinv))
    as (Hok1 & _ & _ & _ & _ & D6 & _ & D8 & _).
  destruct (sweep_props clock _ Hok1) as (_ & _ & _ & _ & _ & S6 & S7 & _).
  rewrite D8, S7 in Hout. unfold pending. rewrite S6.
  destruct (D6 k2) as [Hn | He]; [rewrite Hn in Hout; simpl in Hout; lia |].
  rewrite He, Hg2 in Hout.
  destruct (decide (_ - t2 > TIMEOUT)%Z) as [Hexp |]; [| simpl in Hout; lia].
  destruct (D6 k1) as [-> | ->]; [done |]. rewrite Hg1.
  rewrite decide_True; [done | lia].
Qed.

(** ** [run] and the constructor's wait *)

Lemma loop_turn_eq samples r :
  pending_requests (client (loop_turn clock samples r).1) =
    pending_requests (checkResponses clock samples (client r)).1 ∧
  request_counter (client (loop_turn clock samples r).1) =
    request_counter (checkResponses clock samples (client r)).1 ∧
  request_writer (client (loop_turn clock samples r).1) =
    request_writer (checkResponses clock samples (client r)).1 ∧
  (loop_turn clock samples r).2 = (checkResponses clock samples (client r)).2.
Proof.
  unfold loop_turn.
  destruct (checkResponses clock samples (client r)) as [c1 out].
  destruct (last_request r); simpl; done.
Qed.

Lemma loop_cons samples batches r :
  loop clock (samples :: batches) r =
    ((loop clock batches (loop_turn clock samples r).1).1,
     (loop_turn clock samples r).2 ++
       (loop clock batches (loop_turn clock samples r).1).2).
Proof.
  simpl. destruct (loop_turn clock samples r) as [r1 out1]. simpl.
  by destruct (loop clock batches r1).
Qed.

(** The loop sends nothing, and what it prints about an id is paid for by
    the id's node. *)
Lemma loop_props batches :
  ∀ r, StdMap.ok (pending_requests (client r)) →
    request_counter (client (loop clock batches r).1) = request_counter (client r) ∧
    request_writer (client (loop clock batches r).1) = request_writer (client r) ∧
    sent_ids (loop clock batches r).2 = [] ∧
    ∀ R, count (is_match R) (loop clock batches r).2 +
           count (is_timeout R) (loop clock batches r).2 +
           pending R (client (loop clock batches r).1)
         = pending R (client r).
Proof.
  induction batches as [| samples rest IH]; intros r Hok.
  - simpl. do 3 (split; [done |]). intros R. lia.
  - rewrite loop_cons. cbn [fst snd].
    destruct (loop_turn_eq samples r) as (Hp & Hc & Hw & Hout).
    destruct (checkResponses_props clock samples (client r) Hok)
      as (Hok1 & Hc1 & _ & _ & Hsum & _).
    destruct (checkResponses_frame clock samples (client r)) as (_ & Hw1 & Hno).
    destruct (IH (loop_turn clock samples r).1) as (I1 & I2 & I3 & I4);
      [by rewrite Hp |].
    rewrite I1, I2, Hc, Hw, Hc1, Hw1, sent_ids_app, I3, Hout, Hno.
    do 3 (split; [done |]).
    intros R. specialize (I4 R). specialize (Hsum R). rewrite !count_app.
    unfold pending in *. rewrite Hp in I4. lia.
Qed.

(** X15: [run] sends three requests and no more: started on the initial
    client it writes the requests RED on, GREEN on, BLUE on with the ids
    1, 2, 3, and for any number of turns of its loop, whatever arrives,
    nothing else is written or announced, and each of the three ids is
    either still pending or has been reported exactly once. *)
Theorem LedClient_run_three batches :
  let r := LedClient_run clock batches init in
  request_writer (client r.1) =
    [mkLedRequest RED true 1; mkLedRequest GREEN true 2;
     mkLedRequest BLUE true 3] ∧
  sent_ids r.2 = [1%N; 2%N; 3%N] ∧
  request_counter (client r.1) = 3%N ∧
  ∀ R, count (is_match R) r.2 + count (is_timeout R) r.2 +
         pending R (client r.1)
       = if decide (R = 1 ∨ R = 2 ∨ R = 3)%N then 1 else 0.
Proof.
  set (c3 := {| request_counter := 3;
                pending_requests := [(1%N, clock 0); (2%N, clock 1);
                                     (3%N, clock 2)];
                request_writer := [mkLedRequest RED true 1;
                                   mkLedRequest GREEN true 2;
                                   mkLedRequest BLUE true 3];
                clock_reads := 3 |}).
  set (r0 := {| client := c3; last_request := None |}).
  assert (Hrun : LedClient_run clock batches init =
                 ((loop clock batches r0).1,
                  [SendingRequest "RED" true 1; SendingRequest "GREEN" true 2;
                   SendingRequest "BLUE" true 3] ++ (loop clock batches r0).2)).
  { unfold LedClient_run. rewrite !sendRequest_eq. cbn zeta.
    change (loop clock batches _) with (loop clock batches r0).
    by destruct (loop clock batches r0). }
  rewrite Hrun. cbn zeta. cbn [fst snd].
  assert (Hok : StdMap.ok (pending_requests (client r0))).
  { unfold StdMap.ok. simpl. repeat constructor; reflexivity. }
  destruct (loop_props batches r0 Hok) as (H1 & H2 & H3 & H4).
  split; [by rewrite H2 |].
  split; [by rewrite sent_ids_app, H3 |].
  split; [by rewrite H1 |].
  intros R. specialize (H4 R).
  rewrite !count_app. cbn [count is_match is_timeout].
  unfold pending at 2 in H4. simpl in H4.
  rewrite !get_cons, get_nil in H4.
  repeat case_decide; lia.
Qed.

(** X16: the constructor's wait ends after poll number [n] (counted from
    1) exactly when that poll is the first to report a matched
    subscription; it polls and sleeps at least once even if the server is
    already there, and it has not ended after [fuel] polls if none of them
    reports one. *)
Theorem wait_for_server_first_match fuel (current_count : nat → Z) (n : nat) :
  wait_for_server fuel current_count 0 = Some n ↔
    0 < n ≤ fuel ∧ (1 ≤ current_count (n - 1)%nat)%Z ∧
    ∀ j, j < n - 1 → (current_count j < 1)%Z.
Proof.
  assert (Hgen : ∀ fuel p n,
            wait_for_server fuel current_count p = Some n ↔
              p < n ≤ p + fuel ∧ (1 ≤ current_count (n - 1)%nat)%Z ∧
              ∀ j, p ≤ j < n - 1 → (current_count j < 1)%Z).
  { clear. intros fuel. induction fuel as [| fuel IH]; intros p n; simpl.
    - split; [done | lia].
    - destruct (decide (current_count p < 1)%Z) as [Hlow | Hhigh].
      + rewrite IH. split.
        * intros (Hn & Hc & Hall). split; [lia |]. split; [done |].
          intros j Hj. destruct (decide (j = p)) as [-> | ?]; [done |].
          apply Hall. lia.
        * intros (Hn & Hc & Hall).
          assert (n ≠ S p).
          { intros ->. replace (S p - 1) with p in Hc by lia. lia. }
          split; [lia |]. split; [done |]. intros j Hj. apply Hall. lia.
      + split.
        * intros [= <-]. replace (S p - 1) with p by lia.
          split; [lia |]. split; [lia |]. intros j Hj. lia.
        * intros (Hn & Hc & Hall). f_equal.
          destruct (decide (n = S p)) as [-> | ?]; [done |].
          specialize (Hall p ltac:(lia)). lia. }
  rewrite Hgen. split.
  - intros (Hn & Hc & Hall). split; [lia |]. split; [done |].
    intros j Hj. apply Hall. lia.
  - intros (Hn & Hc & Hall). split; [lia |]. split; [done |].
    intros j Hj. apply Hall. lia.
Qed.

End WithClock2.

Lemma checkResponses_all_answered_witness :
  let c := (run (every 3) [Send RED true; Send GREEN true] init).1 in
  let r := checkResponses (every 3) [response_to 2; response_to 1] c in
  StdMap.ok (pending_requests c) ∧
  answers_all [response_to 2; response_to 1] c ∧
  pending_requests r.1 = [] ∧ timeout_ids r.2 = [].
Proof.
  intros c r.
  assert (Hok : StdMap.ok (pending_requests c)).
  { apply (run_inv (every 3) _ init), init_inv. }
  assert (Hall : answers_all [response_to 2; response_to 1] c).
  { intros k Hk. change (k ∈ [1%N; 2%N]) in Hk.
    apply elem_of_cons in Hk as [-> | Hk];
      [exists (response_to 1); split; [right; left | done] |].
    apply list_elem_of_singleton in Hk as ->.
    exists (response_to 2). split; [left | done]. }
  destruct (checkResponses_all_answered (every 3) _ c Hok Hall) as (H1 & H2 & _).
  done.
Defined.

Lemma no_event_without_request_witness :
  let steps := [Send RED true; Tick [response_to 9]; Tick []; Tick [response_to 9]] in
  StdMap.ok (pending_requests init) ∧ pending 9 init = 0 ∧
  count (is_sending 9) (run (every 3) steps init).2 = 0 ∧
  count (is_match 9) (run (every 3) steps init).2 = 0.
Proof.
  intros steps. split; [apply ok_nil |]. split; [reflexivity |].
  split; [reflexivity |].
  apply (no_event_without_request (every 3) steps init 9 ok_nil eq_refl eq_refl).
Defined.

Lemma every_monotone gap : (0 ≤ gap)%Z → monotone (every gap).
Proof. intros Hgap i j Hij. unfold every, Chrono.seconds. nia. Qed.

Lemma oldest_first_witness :
  let steps := [Send RED true; Send GREEN true] in
  let c := (run (every 6) steps init).1 in
  monotone (every 6) ∧
  (N.of_nat (sends steps) < Word.ULONG_MODULUS)%N ∧
  StdMap.get 1 (pending_requests c) = Some 0%Z ∧
  StdMap.get 2 (pending_requests c) = Some 6000000000%Z ∧
  count (is_timeout 2) (checkResponses (every 6) [] c).2 = 1 ∧
  pending 1 (checkResponses (every 6) [] c).1 = 0.
Proof.
  intros steps c.
  assert (Hmono : monotone (every 6)) by (apply every_monotone; lia).
  destruct (oldest_first (every 6) steps Hmono eq_refl 1%N 2%N 0%Z 6000000000%Z
              eq_refl eq_refl eq_refl) as [_ H].
  split; [exact Hmono |]. split; [reflexivity |]. split; [reflexivity |].
  split; [reflexivity |]. split; [reflexivity |].
  apply (H []). vm_compute. lia.
Defined.

End ClientMore.
